(** * Intermediate tensor splitter: a shallow embedding of
    [tensorflow/compiler/xla/service/intermediate_tensor_splitter.cc]

    The pass visits every dot (contraction) of an HLO computation.  When an
    operand of the dot is large and is produced by a chain of unary
    elementwise operations and transposes over another dot, the pass slices
    one operand of that inner dot, factors the chain out into an embedded
    computation, calls it once per slice and concatenates the per-slice
    dots.

    Conventions of the embedding.
    - [int64] values are integers in [Z].  The only product the code forms,
      [split_size * rest_size], is bounded by the element count of a shape,
      which the host keeps in an [int64]; [/] and [%] are C++ truncating
      division, [Z.quot] and [Z.rem].
    - A C++ function that can leave its normal path returns a [result]:
      [Abort CheckFailed] for a failed [CHECK], [Abort OutOfRange] for a
      checked container access outside its bounds, [Abort Undefined] for
      behaviour the language leaves undefined, and [Abort Diverged] for a
      loop that does not end.
    - Instructions are trees: an instruction carries its operands.  The pass
      never mutates an instruction, so sharing is not observable here. *)

From Stdlib Require Import String ZArith List Lia Bool Znumtheory Sorted.
Import ListNotations.
Local Open Scope Z_scope.

(** ** Outcomes of fallible code *)

Inductive Failure : Type :=
| CheckFailed
| OutOfRange
| Undefined
| Diverged.

Inductive result (A : Type) : Type :=
| Ok (a : A)
| Abort (f : Failure).

Arguments Ok {A} a.
Arguments Abort {A} f.

Definition bind {A B : Type} (m : result A) (k : A -> result B) : result B :=
  match m with
  | Ok a => k a
  | Abort f => Abort f
  end.

Notation "x <- m ;; k" := (bind m (fun x => k))
  (at level 61, m at next level, right associativity).
Notation "' pat <- m ;; k" := (bind m (fun x => match x with pat => k end))
  (at level 61, pat pattern, m at next level, right associativity).

(** [for (int64 i = from; i < from + n; i++) body], threading the locals
    the body updates. *)
Fixpoint for_loop {St : Type} (n : nat) (i : Z) (body : Z -> St -> result St)
    (s : St) : result St :=
  match n with
  | O => Ok s
  | S n' => s' <- body i s ;; for_loop n' (i + 1) body s'
  end.

(** ** Shapes *)

Inductive PrimitiveType : Type := PRED | S32 | S64 | F16 | F32 | F64.

(** Modelled from the spec: the host's shape object (section 3, "Tensor
    shape": an ordered sequence of dimension sizes plus an element type).
    Its declaration is in the host's [shape.h]; indexed access is the
    checked [at] of the underlying vector. *)
Record Shape : Type := MakeShape {
  element_type : PrimitiveType;
  dimensions : list Z
}.

Definition rank (s : Shape) : Z := Z.of_nat (length (dimensions s)).
Definition dimensions_size (s : Shape) : Z := rank s.

(** [v.at(i)] *)
Definition at_ {A : Type} (v : list A) (i : Z) : result A :=
  if (i <? 0) || (Z.of_nat (length v) <=? i) then Abort OutOfRange
  else match nth_error v (Z.to_nat i) with
       | Some a => Ok a
       | None => Abort OutOfRange
       end.

(** [v[i] = x] on a list, for an index already known to be in range. *)
Fixpoint list_set {A : Type} (v : list A) (i : nat) (x : A) : list A :=
  match v, i with
  | [], _ => []
  | _ :: t, O => x :: t
  | h :: t, S i' => h :: list_set t i' x
  end.

(** [v.at(i) = x] *)
Definition set_at {A : Type} (v : list A) (i : Z) (x : A) : result (list A) :=
  if (i <? 0) || (Z.of_nat (length v) <=? i) then Abort OutOfRange
  else Ok (list_set v (Z.to_nat i) x).

(** [shape.dimensions(i)] *)
Definition dimensions_at (s : Shape) (i : Z) : result Z := at_ (dimensions s) i.

(** [shape.set_dimensions(i, value)] *)
Definition set_dimensions (s : Shape) (i value : Z) : result Shape :=
  d <- set_at (dimensions s) i value ;;
  Ok (MakeShape (element_type s) d).

(** [ShapeUtil::ElementsIn]: the product of the dimension sizes. *)
Definition ElementsIn (s : Shape) : Z := fold_right Z.mul 1 (dimensions s).

(** ** The chunk-size search (lines 111-138) *)

Definition primes : list Z :=
  [2;   3;   5;   7;   11;  13;  17;  19;  23;  29;  31;
   37;  41;  43;  47;  53;  59;  61;  67;  71;  73;  79;
   83;  89;  97;  101; 103; 107; 109; 113; 127; 131; 137;
   139; 149; 151; 157; 163; 167; 173; 179; 181; 191; 193;
   197; 199; 211; 223; 227; 229; 233; 239; 241; 251; 257;
   263; 269; 271; 277; 281; 283; 293; 307; 311].

(** [while (tmp_size % p == 0) { factors[i]++; tmp_size /= p; }]
    The loop ends for every non-zero [tmp_size]; for [tmp_size = 0] it
    never does. *)
Fixpoint divide_out (fuel : nat) (p tmp_size count : Z) : result (Z * Z) :=
  match fuel with
  | O => Abort Diverged
  | S fuel' =>
      if Z.rem tmp_size p =? 0
      then divide_out fuel' p (Z.quot tmp_size p) (count + 1)
      else Ok (count, tmp_size)
  end.

Definition divide_out_fuel (tmp_size : Z) : nat :=
  S (Z.to_nat (Z.log2 (Z.abs tmp_size))).

(** The first [for] loop of [BestSplitSize]: the multiplicity of every
    table prime in [tmp_size], and what is left of [tmp_size]. *)
Fixpoint factorize (ps : list Z) (tmp_size : Z) : result (list Z * Z) :=
  match ps with
  | [] => Ok ([], tmp_size)
  | p :: ps' =>
      '(count, tmp_size') <-
        divide_out (divide_out_fuel tmp_size) p tmp_size 0 ;;
      '(factors, rest) <- factorize ps' tmp_size' ;;
      Ok (count :: factors, rest)
  end.

(** [while (split_size * rest_size > target && factors[i]-- > 0)
       split_size /= p;]
    [factor] is the value of [factors[i]] on entry; the [-1] the last
    post-decrement leaves behind is never read again. *)
Fixpoint shrink (factor : nat) (target rest_size p split_size : Z) : Z :=
  match factor with
  | O => split_size
  | S factor' =>
      if split_size * rest_size >? target
      then shrink factor' target rest_size p (Z.quot split_size p)
      else split_size
  end.

(** The second [for] loop of [BestSplitSize]. *)
Fixpoint reduce (ps factors : list Z) (target rest_size split_size : Z) : Z :=
  match ps, factors with
  | p :: ps', f :: factors' =>
      reduce ps' factors' target rest_size
             (shrink (Z.to_nat f) target rest_size p split_size)
  | _, _ => split_size
  end.

(** Lines 122-137 of [BestSplitSize]: everything after [split_size] and
    [rest_size] are known.  The specification calls this part
    [BestChunkSize]. *)
Definition BestChunkSize (max_intermediate_size target_intermediate_size
                          split_size rest_size : Z) : result Z :=
  '(factors, _) <- factorize primes split_size ;;
  let split_size' :=
    reduce primes factors target_intermediate_size rest_size split_size in
  Ok (if split_size' <=? max_intermediate_size then split_size' else -1).

(** ** Instructions *)

Record DotDimensionNumbers : Type := {
  lhs_contracting_dimensions : list Z;
  rhs_contracting_dimensions : list Z
}.

(** Modelled from the spec: the host's graph node (section 3, "Graph
    node"), declared in the host's [hlo_instruction.h].  [Elementwise]
    stands for every opcode for which [IsElementwise()] holds, [Other] for
    every remaining kind (broadcast, reduce, reshape, ...).  A [Call]
    names the called computation by its root instruction. *)
#[local] Unset Elimination Schemes.
Inductive HloInstruction : Type :=
| Param (parameter_number : Z) (shape : Shape) (name : string)
| Elementwise (opcode : string) (has_side_effect : bool) (shape : Shape)
              (operands : list HloInstruction)
| Transpose (shape : Shape) (operand : HloInstruction) (permutation : list Z)
| Dot (shape : Shape) (lhs rhs : HloInstruction) (dnums : DotDimensionNumbers)
| Slice (shape : Shape) (operand : HloInstruction) (start limit stride : list Z)
| Call (shape : Shape) (operands : list HloInstruction)
       (to_apply : HloInstruction)
| Concatenate (shape : Shape) (operands : list HloInstruction) (dimension : Z)
| Other (opcode : string) (shape : Shape) (operands : list HloInstruction).
#[local] Set Elimination Schemes.

(** [inst->shape()] *)
Definition shape_of (inst : HloInstruction) : Shape :=
  match inst with
  | Param _ s _ => s
  | Elementwise _ _ s _ => s
  | Transpose s _ _ => s
  | Dot s _ _ _ => s
  | Slice s _ _ _ _ => s
  | Call s _ _ => s
  | Concatenate s _ _ => s
  | Other _ s _ => s
  end.

(** [inst->CloneWithNewOperands(shape, operands)]: the same operation with
    its attributes, over new operands and with the shape it is given. *)
Definition CloneWithNewOperands (inst : HloInstruction) (s : Shape)
    (ops : list HloInstruction) : result HloInstruction :=
  match inst, ops with
  | Param n _ name, [] => Ok (Param n s name)
  | Elementwise opc se _ _, _ => Ok (Elementwise opc se s ops)
  | Transpose _ _ perm, [o] => Ok (Transpose s o perm)
  | Dot _ _ _ dn, [l; r] => Ok (Dot s l r dn)
  | Slice _ _ st li sr, [o] => Ok (Slice s o st li sr)
  | Call _ _ c, _ => Ok (Call s ops c)
  | Concatenate _ _ d, _ => Ok (Concatenate s ops d)
  | Other opc _ _, _ => Ok (Other opc s ops)
  | _, _ => Abort CheckFailed
  end.

Record HloComputation : Type := {
  computation_name : string;
  root_instruction : HloInstruction;
  computation_instructions : list HloInstruction
}.

(** ** The visitor (lines 16-59) *)

(** The two thresholds.  The [parent_module] pointer of the class is
    represented by the [embedded_computations] of the graph the visitor
    works on. *)
Record IntermediateTensorSplitterVisitor : Type := {
  max_intermediate_size : Z;
  target_intermediate_size : Z
}.

Section Visitor.

Variable this : IntermediateTensorSplitterVisitor.

(** Lines 63-66. *)
Definition OperandShouldBeSplit (inst : HloInstruction) : bool :=
  ElementsIn (shape_of inst) >? max_intermediate_size this.

(** Lines 68-79; the matched operand is returned instead of written through
    the pointer. *)
Definition MatchPointwiseUnary (inst : HloInstruction)
  : option HloInstruction :=
  match inst with
  | Elementwise _ false _ [operand] => Some operand
  | _ => None
  end.

(** Lines 81-95. *)
Fixpoint OperandCanBeSplit (inst : HloInstruction) : bool :=
  match inst with
  | Dot _ _ _ _ => true
  | Elementwise _ false _ [next] => OperandCanBeSplit next
  | Transpose _ next _ => OperandCanBeSplit next
  | _ => false
  end.

(** Lines 118-138.  [ElementsIn / split_size] with [split_size = 0] is a
    division by zero. *)
Definition BestSplitSize (inst : HloInstruction) (split_dim : Z) : result Z :=
  split_size <- dimensions_at (shape_of inst) split_dim ;;
  if split_size =? 0 then Abort Undefined
  else
    let rest_size := Z.quot (ElementsIn (shape_of inst)) split_size in
    BestChunkSize (max_intermediate_size this) (target_intermediate_size this)
                  split_size rest_size.

(** The body of the loop of [BestSplitDim] (lines 102-106) on the locals
    [(best_dim, best_size)]. *)
Definition BestSplitDim_body (inst : HloInstruction) (excluded : list Z)
    (i : Z) (best : Z * Z) : result (Z * Z) :=
  let '(best_dim, best_size) := best in
  if existsb (Z.eqb i) excluded then Ok best
  else
    d <- dimensions_at (shape_of inst) i ;;
    if d >? best_size then
      v <- BestSplitSize inst i ;;
      if negb (v =? -1) then Ok (i, d) else Ok best
    else Ok best.

(** Lines 97-109. *)
Definition BestSplitDim (inst : HloInstruction) (excluded : list Z)
  : result Z :=
  '(best_dim, _) <- for_loop (length (dimensions (shape_of inst))) 0
                             (BestSplitDim_body inst excluded) (-1, 0) ;;
  Ok best_dim.

(** ** The builder (lines 140-254) *)

(** What [BuildComputationAndParameters] writes to: the computation the
    split operand lives in (only the instructions added to it are kept),
    the [HloComputation::Builder], and the [parameters] vector. *)
Record BuildState : Type := {
  parent_added : list HloInstruction;
  builder_instructions : list HloInstruction;
  parameters : list (list HloInstruction)
}.

(** Lines 176-178. *)
Definition adjust_split_dim (contracting : list Z) (split_dim : Z) : Z :=
  fold_left (fun sd c => if sd >=? c then sd + 1 else sd) contracting split_dim.

(** Lines 195-209.  Iteration [i] reads and extends [parameters->at(i)], so
    the loop walks down the vector; [idx] holds [split_parameter_idx] and
    [join_parameter_idx], unset until the first iteration. *)
Fixpoint slice_loop (params : list (list HloInstruction))
    (split_op join_op : HloInstruction) (split_shape : Shape)
    (split_dim split_size : Z) (start limit stride : list Z)
    (dims_done bound : Z) (idx : option (Z * Z))
  : result (list HloInstruction * list (list HloInstruction)
            * option (Z * Z)) :=
  if dims_done <? bound then
    match params with
    | [] => Abort OutOfRange
    | p :: params' =>
        let split_parameter_idx := Z.of_nat (length p) in
        let start' := list_set start (Z.to_nat split_dim) dims_done in
        let limit' :=
          list_set limit (Z.to_nat split_dim) (dims_done + split_size) in
        let slice := Slice split_shape split_op start' limit' stride in
        let join_parameter_idx := Z.of_nat (length (p ++ [slice])) in
        '(slices, params'', idx') <-
          slice_loop params' split_op join_op split_shape split_dim split_size
                     start' limit' stride (dims_done + split_size) bound
                     (Some (split_parameter_idx, join_parameter_idx)) ;;
        Ok (slice :: slices, (p ++ [slice; join_op]) :: params'', idx')
    end
  else Ok ([], params, idx).

(** The dot case, lines 147-226. *)
Definition BuildDot (inst : HloInstruction) (dot_shape0 : Shape)
    (lhs rhs : HloInstruction) (dnums : DotDimensionNumbers)
    (split_dim split_size : Z) (st : BuildState)
  : result (HloInstruction * BuildState) :=
  dot_shape <- set_dimensions
                 (MakeShape (element_type dot_shape0) (dimensions dot_shape0))
                 split_dim split_size ;;
  let dims_lhs :=
    rank (shape_of lhs)
    - Z.of_nat (length (lhs_contracting_dimensions dnums)) in
  let '(split_is_lhs, split_dim, split_op, join_op) :=
    if split_dim <? dims_lhs then (true, split_dim, lhs, rhs)
    else (false, split_dim - dims_lhs, rhs, lhs) in
  let split_dim :=
    adjust_split_dim (lhs_contracting_dimensions dnums) split_dim in
  split_shape <- set_dimensions
                   (MakeShape (element_type (shape_of split_op))
                              (dimensions (shape_of split_op)))
                   split_dim split_size ;;
  let start := map (fun _ => 0) (dimensions (shape_of split_op)) in
  let limit := dimensions (shape_of split_op) in
  let stride := map (fun _ => 1) (dimensions (shape_of split_op)) in
  bound <- dimensions_at (shape_of split_op) split_dim ;;
  '(slices, params, idx) <-
    slice_loop (parameters st) split_op join_op split_shape split_dim split_size
               start limit stride 0 bound None ;;
  match idx with
  | None => Abort Undefined
  | Some (split_parameter_idx, join_parameter_idx) =>
      let split_param :=
        Param split_parameter_idx split_shape "dot_split_tensor" in
      let join_param :=
        Param join_parameter_idx (shape_of join_op) "dot_join_tensor" in
      let ops := if split_is_lhs : bool then [split_param; join_param]
                 else [join_param; split_param] in
      root <- CloneWithNewOperands inst dot_shape ops ;;
      Ok (root,
          {| parent_added := parent_added st ++ slices;
             builder_instructions :=
               builder_instructions st ++ [split_param; join_param; root];
             parameters := params |})
  end.

(** Registers a cloned unary or transpose in the builder (lines 234-236 and
    246-248). *)
Definition clone_over (inst new_operand : HloInstruction) (st : BuildState)
  : result (HloInstruction * BuildState) :=
  root <- CloneWithNewOperands inst (shape_of new_operand) [new_operand] ;;
  Ok (root,
      {| parent_added := parent_added st;
         builder_instructions := builder_instructions st ++ [root];
         parameters := parameters st |}).

(** [inst->dimensions(i)] of a transpose: unchecked indexing into the
    permutation. *)
Definition permutation_at (perm : list Z) (i : Z) : result Z :=
  match at_ perm i with
  | Ok d => Ok d
  | Abort _ => Abort Undefined
  end.

Fixpoint BuildComputationAndParameters (inst : HloInstruction)
    (split_dim split_size : Z) (st : BuildState)
  : result (HloInstruction * BuildState) :=
  match inst with
  | Dot s lhs rhs dnums => BuildDot inst s lhs rhs dnums split_dim split_size st
  | Elementwise _ false _ [operand] =>
      '(new_operand, st') <-
        BuildComputationAndParameters operand split_dim split_size st ;;
      clone_over inst new_operand st'
  | Transpose _ operand perm =>
      operand_split_dim <- permutation_at perm split_dim ;;
      '(new_operand, st') <-
        BuildComputationAndParameters operand operand_split_dim split_size st ;;
      clone_over inst new_operand st'
  | _ => Abort CheckFailed
  end.

(** ** The rewrite of one dot (lines 256-335) *)

(** What [HandleDot] writes to: the instructions of the computation the dot
    lives in, the computations embedded in [parent_module], and the
    replacements requested through [ReplaceInstruction]. *)
Record Graph : Type := {
  instructions : list HloInstruction;
  embedded_computations : list HloComputation;
  replaced : list (HloInstruction * HloInstruction)
}.

(** How a call of [HandleDot] ends: it returns [Status::OK()], or control
    reaches the closing brace of the function, which has no [return]
    (lines 334-335), or the process is aborted. *)
Inductive Outcome : Type :=
| Returns (g : Graph)
| FallsOffEnd (g : Graph)
| Fatal (f : Failure).

(** Lines 285-288. *)
Fixpoint partition_loop (fuel : nat) (bound split_size full_size : Z)
    (params : list (list HloInstruction))
  : result (list (list HloInstruction) * Z) :=
  match fuel with
  | O => if full_size <? bound then Abort Diverged else Ok (params, full_size)
  | S fuel' =>
      if full_size <? bound
      then partition_loop fuel' bound split_size (full_size + split_size)
                          (params ++ [[]])
      else Ok (params, full_size)
  end.

(** Line 289, [CHECK(full_size = value)]: the argument of [CHECK] is an
    assignment, so [full_size] becomes [value] and the check fails when
    that is zero. *)
Definition CHECK_assign (value : Z) : result Z :=
  if value =? 0 then Abort CheckFailed else Ok value.

(** Lines 302-304 and 306-308. *)
Definition lower_split_dim (contracting : list Z) (dot_split_dim : Z) : Z :=
  fold_left (fun d c_dim => if c_dim <? d then d - 1 else d)
            contracting dot_split_dim.

(** Lines 300-311. *)
Definition output_split_dim (lhs : HloInstruction) (dnums : DotDimensionNumbers)
    (split_is_lhs : bool) (split_dim : Z) : Z :=
  if split_is_lhs
  then lower_split_dim (lhs_contracting_dimensions dnums) split_dim
  else lower_split_dim (rhs_contracting_dimensions dnums) split_dim
       + (rank (shape_of lhs)
          - Z.of_nat (length (lhs_contracting_dimensions dnums))).

(** Lines 314-328: one call and one dot per entry of [parameters]. *)
Fixpoint emit_parts (dot lhs rhs comp_root : HloInstruction)
    (part_shape : Shape) (split_is_lhs : bool)
    (params : list (list HloInstruction))
  : result (list HloInstruction * list HloInstruction) :=
  match params with
  | [] => Ok ([], [])
  | operands :: params' =>
      let call := Call (shape_of comp_root) operands comp_root in
      let ops := if split_is_lhs then [call; rhs] else [lhs; call] in
      part <- CloneWithNewOperands dot part_shape ops ;;
      '(added, parts) <-
        emit_parts dot lhs rhs comp_root part_shape split_is_lhs params' ;;
      Ok (call :: part :: added, part :: parts)
  end.

(** Lines 265-333, the branch taken when an operand is to be split. *)
Definition HandleDot_split (dot lhs rhs : HloInstruction)
    (dnums : DotDimensionNumbers) (split_is_lhs : bool) (g : Graph)
  : result Graph :=
  let split_inst := if split_is_lhs then lhs else rhs in
  split_dim <- BestSplitDim split_inst
                 (if split_is_lhs then lhs_contracting_dimensions dnums
                  else rhs_contracting_dimensions dnums) ;;
  if split_dim =? -1 then Ok g
  else
    split_size <- BestSplitSize split_inst split_dim ;;
    if split_size =? -1 then Abort CheckFailed
    else
      bound <- dimensions_at (shape_of split_inst) split_dim ;;
      '(params, _) <- partition_loop (Z.to_nat bound) bound split_size 0 [] ;;
      _ <- CHECK_assign bound ;;
      '(comp_root, st) <-
        BuildComputationAndParameters split_inst split_dim split_size
          {| parent_added := [];
             builder_instructions := [];
             parameters := params |} ;;
      let comp :=
        {| computation_name := "intermediate_split_tensor_computation";
           root_instruction := comp_root;
           computation_instructions := builder_instructions st |} in
      let dot_split_dim := output_split_dim lhs dnums split_is_lhs split_dim in
      part_shape <- set_dimensions
                      (MakeShape (element_type (shape_of dot))
                                 (dimensions (shape_of dot)))
                      split_dim split_size ;;
      '(added, parts) <-
        emit_parts dot lhs rhs comp_root part_shape split_is_lhs
                   (parameters st) ;;
      let concat := Concatenate (shape_of dot) parts dot_split_dim in
      Ok {| instructions :=
              instructions g ++ parent_added st ++ added ++ [concat];
            embedded_computations := embedded_computations g ++ [comp];
            replaced := replaced g ++ [(dot, concat)] |}.

Definition HandleDot (dot : HloInstruction) (g : Graph) : Outcome :=
  match dot with
  | Dot _ lhs rhs dnums =>
      let can_split_lhs := OperandShouldBeSplit lhs && OperandCanBeSplit lhs in
      let can_split_rhs := OperandShouldBeSplit rhs && OperandCanBeSplit rhs in
      if can_split_lhs || can_split_rhs then
        let split_is_lhs := can_split_lhs in
        match HandleDot_split dot lhs rhs dnums split_is_lhs g with
        | Ok g' => Returns g'
        | Abort f => Fatal f
        end
      else FallsOffEnd g
  | _ => Fatal CheckFailed
  end.

End Visitor.

(** ** The entry point (lines 337-343) *)

Section Run.

(** The host's module type and the traversal [RunOnModule] the visitor
    inherits from [DfsHloRewriteVisitor] are declared outside this file. *)
Variable HloModule : Type.
Variable RunOnModule :
  IntermediateTensorSplitterVisitor -> HloModule -> result bool.

Definition Run (module : HloModule) : result bool :=
  let max_size := 1000 * 1000 in
  let target_size := 1000 * 200 in
  let visitor := {| max_intermediate_size := max_size;
                    target_intermediate_size := target_size |} in
  RunOnModule visitor module.

End Run.

(** * Vocabulary of the properties *)

(** A bounded trial division, used to check the prime table. *)
Definition no_divisor_below (p : Z) : bool :=
  forallb (fun n => negb (Z.rem p n =? 0))
          (map Z.of_nat (seq 2 (Z.to_nat p - 2))).

(** [prime_powers ps fs] is the product of [p ^ f] over the table. *)
Fixpoint prime_powers (ps factors : list Z) : Z :=
  match ps, factors with
  | p :: ps', f :: factors' => p ^ f * prime_powers ps' factors'
  | _, _ => 1
  end.

(** A number is smooth when it is a product of table primes. *)
Definition smooth (m : Z) : Prop :=
  exists l, Forall (fun p => In p primes) l /\ m = fold_right Z.mul 1 l.

(** [BestSplitSize] succeeds on dimension [i]: it returns, and not [-1]. *)
Definition splittable (this : IntermediateTensorSplitterVisitor)
    (inst : HloInstruction) (i : Z) : Prop :=
  exists v, BestSplitSize this inst i = Ok v /\ v <> -1.

(** The loop invariant of [BestSplitDim] at index [i], on the locals
    [(best_dim, best_size)]. *)
Definition BestSplitDim_invariant (this : IntermediateTensorSplitterVisitor)
    (inst : HloInstruction) (excluded : list Z) (i : Z) (best : Z * Z) : Prop :=
  let '(best_dim, best_size) := best in
  0 <= best_size /\
  ((best_dim = -1 /\ best_size = 0) \/
   (0 <= best_dim < i /\ ~ In best_dim excluded /\ splittable this inst best_dim /\
    dimensions_at (shape_of inst) best_dim = Ok best_size /\ 0 < best_size)) /\
  (forall j dj,
      0 <= j < i -> ~ In j excluded ->
      dimensions_at (shape_of inst) j = Ok dj -> 0 < dj -> splittable this inst j ->
      best_dim <> -1 /\ dj <= best_size /\ (dj = best_size -> best_dim <= j)).

(** Where the builder puts the split: the shape of the innermost dot of the
    chain and the split dimension mapped through the transposes on the way
    down. *)
Fixpoint split_location (inst : HloInstruction) (split_dim : Z)
  : result (Shape * Z) :=
  match inst with
  | Dot s _ _ _ => Ok (s, split_dim)
  | Elementwise _ false _ [operand] => split_location operand split_dim
  | Transpose _ operand perm =>
      d <- permutation_at perm split_dim ;; split_location operand d
  | _ => Abort CheckFailed
  end.

(** The concatenations that replace a dot: shape, dimension and the shapes
    of the parts. *)
Definition concatenations (g : Graph) : list (Shape * Z * list Shape) :=
  flat_map (fun r => match snd r with
                     | Concatenate s ops d => [(s, d, map shape_of ops)]
                     | _ => []
                     end) (replaced g).

(** ** Example graphs *)

Definition f32 (dims : list Z) : Shape := MakeShape F32 dims.

(** A matrix product: the second dimension of the lhs against the first of
    the rhs. *)
Definition matmul : DotDimensionNumbers :=
  {| lhs_contracting_dimensions := [1]; rhs_contracting_dimensions := [0] |}.

(** The visitor [Run] builds. *)
Definition run_visitor : IntermediateTensorSplitterVisitor :=
  {| max_intermediate_size := 1000000; target_intermediate_size := 200000 |}.

Definition empty_graph : Graph :=
  {| instructions := []; embedded_computations := []; replaced := [] |}.

(** [n] empty per-chunk operand lists, as [HandleDot] hands them to the
    builder. *)
Definition empty_parameters (n : nat) : BuildState :=
  {| parent_added := []; builder_instructions := [];
     parameters := repeat [] n |}.

(** [a . (b . c)]: the large operand is the rhs, a product of two
    matrices. *)
Definition inner_bc : HloInstruction :=
  Dot (f32 [4096; 20000])
      (Param 1 (f32 [4096; 128]) "b") (Param 2 (f32 [128; 20000]) "c") matmul.

Definition chain_rhs : HloInstruction :=
  Dot (f32 [10; 20000]) (Param 0 (f32 [10; 4096]) "a") inner_bc matmul.

(** The same chain with a longer contracted dimension inside. *)
Definition inner_bc_long : HloInstruction :=
  Dot (f32 [4096; 20000])
      (Param 1 (f32 [4096; 40000]) "b") (Param 2 (f32 [40000; 20000]) "c") matmul.

Definition chain_rhs_long : HloInstruction :=
  Dot (f32 [10; 20000]) (Param 0 (f32 [10; 4096]) "a") inner_bc_long matmul.

(** [(b . c) . a]: the large operand is the lhs and is split along its
    first dimension. *)
Definition inner_rows : HloInstruction :=
  Dot (f32 [20000; 4096])
      (Param 1 (f32 [20000; 128]) "b") (Param 2 (f32 [128; 4096]) "c") matmul.

Definition chain_lhs : HloInstruction :=
  Dot (f32 [20000; 10]) inner_rows (Param 0 (f32 [4096; 10]) "a") matmul.

(** The large lhs is contracted along its first dimension, so it is split
    along its second one. *)
Definition inner_tensor : HloInstruction :=
  Dot (f32 [4096; 20000])
      (Param 1 (f32 [4096; 20000; 128]) "b") (Param 2 (f32 [128]) "c")
      {| lhs_contracting_dimensions := [2]; rhs_contracting_dimensions := [0] |}.

Definition contract_first : DotDimensionNumbers :=
  {| lhs_contracting_dimensions := [0]; rhs_contracting_dimensions := [0] |}.

Definition chain_contract_first : HloInstruction :=
  Dot (f32 [20000; 10]) inner_tensor (Param 0 (f32 [4096; 10]) "a")
      contract_first.

(** The large lhs is the transpose of a product. *)
Definition transposed_rows : HloInstruction :=
  Transpose (f32 [4096; 20000]) inner_rows [1; 0].

(** Example 1 of the specification: no operand is large. *)
Definition small_dot : HloInstruction :=
  Dot (f32 [4096; 4096])
      (Param 0 (f32 [4096; 128]) "a") (Param 1 (f32 [128; 4096]) "b") matmul.

(** A large lhs whose only free dimension is a prime above the ceiling. *)
Definition inner_prime : HloInstruction :=
  Dot (f32 [1000003; 2])
      (Param 1 (f32 [1000003; 128]) "b") (Param 2 (f32 [128; 2]) "c") matmul.

Definition chain_prime : HloInstruction :=
  Dot (f32 [1000003; 10]) inner_prime (Param 0 (f32 [2; 10]) "a") matmul.

(** Projections used to read a rewritten graph. *)
Definition slices_of (l : list HloInstruction) : list HloInstruction :=
  filter (fun i => match i with Slice _ _ _ _ _ => true | _ => false end) l.

Definition call_operand_counts (l : list HloInstruction) : list nat :=
  flat_map (fun i => match i with Call _ ops _ => [length ops] | _ => [] end) l.

(** ** Vocabulary and examples of the further properties *)

(** A chain of unary elementwise operations over a dot, each with the shape
    of its operand: a chain without transposes. *)
Fixpoint unary_over_dot (inst : HloInstruction) : Prop :=
  match inst with
  | Dot _ _ _ _ => True
  | Elementwise _ false s [operand] =>
      s = shape_of operand /\ unary_over_dot operand
  | _ => False
  end.


Definition tiny_inner : HloInstruction :=
  Dot (f32 [4; 3]) (Param 1 (f32 [4; 2]) "b") (Param 2 (f32 [2; 3]) "c") matmul.


Definition tiny_negated : HloInstruction :=
  Elementwise "negate" false (f32 [4; 3]) [tiny_inner].

Definition tiny_transposed : HloInstruction :=
  Transpose (f32 [3; 4]) tiny_inner [1; 0].


(** What the builder returns for a node split into chunks of one row, with
    four operand lists. *)
Definition tiny_built (inst : HloInstruction) (split_dim : Z)
  : HloInstruction * BuildState :=
  match BuildComputationAndParameters inst split_dim 1 (empty_parameters 4) with
  | Ok r => r
  | Abort _ => (inst, empty_parameters 4)
  end.

(** Every number of the range is in the table or has a divisor between 2
    and itself: used to check that no prime is missing from the table. *)
Definition table_or_composite (n : Z) : bool :=
  existsb (Z.eqb n) primes
  || existsb (fun k => Z.rem n k =? 0)
             (map Z.of_nat (seq 2 (Z.to_nat n - 2))).

(** * Properties *)

(** ** Fallible code: inversion of [bind] *)

Lemma bind_Ok {A B : Type} (m : result A) (k : A -> result B) (b : B) :
  bind m k = Ok b -> exists a, m = Ok a /\ k a = Ok b.
Proof.
  destruct m as [a | f]; simpl; intros H; [exists a; auto | discriminate].
Qed.

Lemma at_Ok {A : Type} (v : list A) (i : Z) (a : A) :
  at_ v i = Ok a <->
  0 <= i < Z.of_nat (length v) /\ nth_error v (Z.to_nat i) = Some a.
Proof.
  unfold at_.
  destruct (Z.ltb_spec i 0); destruct (Z.leb_spec (Z.of_nat (length v)) i);
    simpl; try (split; [discriminate | lia]).
  destruct (nth_error v (Z.to_nat i)) eqn:E.
  - split; [intros [= ->]; split; [lia | reflexivity] | intros [_ [= ->]]; reflexivity].
  - split; [discriminate | intros [_ [=]]].
Qed.

Lemma at_in_range {A : Type} (v : list A) (i : Z) :
  0 <= i < Z.of_nat (length v) -> exists a, at_ v i = Ok a.
Proof.
  intros Hi. destruct (nth_error v (Z.to_nat i)) eqn:E.
  - exists a. apply at_Ok. auto.
  - apply nth_error_None in E. lia.
Qed.

(** ** The prime table *)

Lemma no_divisor_below_prime (p : Z) :
  1 < p -> no_divisor_below p = true -> Z.prime p.
Proof.
  intros Hp Hb. split; [exact Hp |]. intros n Hn Hdiv.
  unfold no_divisor_below in Hb. rewrite forallb_forall in Hb.
  assert (Hin : In n (map Z.of_nat (seq 2 (Z.to_nat p - 2)))).
  { apply in_map_iff. exists (Z.to_nat n). split; [lia |].
    apply in_seq. lia. }
  apply Hb in Hin. apply negb_true_iff in Hin. apply Z.eqb_neq in Hin.
  apply Hin. apply Z.rem_divide; [lia | exact Hdiv].
Qed.

Lemma primes_prime : Forall Z.prime primes.
Proof.
  unfold primes.
  repeat (constructor;
          [apply no_divisor_below_prime; [lia | vm_compute; reflexivity] |]).
  constructor.
Qed.

Lemma primes_ge_2 : Forall (fun p => 2 <= p) primes.
Proof.
  eapply Forall_impl; [| exact primes_prime].
  intros p [Hp _]. lia.
Qed.

Lemma prime_powers_pos (ps fs : list Z) :
  Forall (fun p => 2 <= p) ps -> Forall (fun f => 0 <= f) fs ->
  1 <= prime_powers ps fs.
Proof.
  intros Hps. revert fs. induction Hps as [| p ps Hp Hps IH]; intros fs Hfs.
  - simpl. lia.
  - destruct Hfs as [| f fs Hf Hfs]; simpl; [lia |].
    specialize (IH fs Hfs).
    assert (0 < p ^ f) by (apply Z.pow_pos_nonneg; lia). nia.
Qed.

(** ** The first loop: factoring *)

Lemma divide_out_spec (fuel : nat) (p : Z) :
  2 <= p ->
  forall tmp_size count,
    1 <= tmp_size -> tmp_size < 2 ^ Z.of_nat fuel ->
    exists count' tmp_size',
      divide_out fuel p tmp_size count = Ok (count', tmp_size') /\
      count <= count' /\ 1 <= tmp_size' /\
      tmp_size = tmp_size' * p ^ (count' - count) /\
      ~ (p | tmp_size').
Proof.
  intros Hp. induction fuel as [| fuel IH]; intros tmp count Htmp Hlt.
  - simpl in Hlt. lia.
  - cbn [divide_out]. destruct (Z.eqb_spec (Z.rem tmp p) 0) as [E | E].
    + apply Z.rem_divide in E; [| lia]. destruct E as [q Hq]. subst tmp.
      rewrite Z.quot_mul by lia.
      assert (Hq1 : 1 <= q) by nia.
      assert (Hq2 : q < 2 ^ Z.of_nat fuel).
      { rewrite Nat2Z.inj_succ, Z.pow_succ_r in Hlt by lia. nia. }
      destruct (IH q (count + 1) Hq1 Hq2) as (c' & t' & -> & Hc & Ht & Heq & Hnd).
      exists c', t'. repeat split; try lia; try assumption.
      replace (c' - count) with (Z.succ (c' - (count + 1))) by lia.
      rewrite Z.pow_succ_r by lia. rewrite Heq at 1. ring.
    + exists count, tmp. repeat split; try lia.
      * rewrite Z.sub_diag. simpl. lia.
      * intros Hd. apply E. apply Z.rem_divide; [lia | exact Hd].
Qed.

Lemma divide_out_fuel_enough (tmp_size : Z) :
  1 <= tmp_size -> tmp_size < 2 ^ Z.of_nat (divide_out_fuel tmp_size).
Proof.
  intros H. unfold divide_out_fuel.
  rewrite Nat2Z.inj_succ, Z2Nat.id by apply Z.log2_nonneg.
  rewrite Z.abs_eq by lia. apply Z.log2_spec. lia.
Qed.

Lemma factorize_spec (ps : list Z) :
  Forall (fun p => 2 <= p) ps ->
  forall tmp_size, 1 <= tmp_size ->
    exists factors rest,
      factorize ps tmp_size = Ok (factors, rest) /\
      length factors = length ps /\
      Forall (fun f => 0 <= f) factors /\
      1 <= rest /\
      tmp_size = rest * prime_powers ps factors /\
      Forall (fun p => ~ (p | rest)) ps.
Proof.
  induction 1 as [| p ps Hp Hps IH]; intros tmp Htmp.
  - exists [], tmp. simpl. repeat split; auto; lia.
  - cbn [factorize].
    destruct (divide_out_spec (divide_out_fuel tmp) p Hp tmp 0 Htmp
                (divide_out_fuel_enough tmp Htmp))
      as (c & t1 & -> & Hc & Ht1 & Heq & Hnd).
    cbn [bind]. destruct (IH t1 Ht1) as (fs & t & -> & Hlen & Hfs & Ht & Heq' & Hall).
    cbn [bind]. exists (c :: fs), t. repeat split; auto.
    + simpl. lia.
    + simpl. rewrite Heq, Heq', Z.sub_0_r. ring.
    + constructor; [| exact Hall].
      intros Hd. apply Hnd. rewrite Heq'.
      apply Z.divide_mul_l. exact Hd.
Qed.

(** ** The second loop: dividing the chunk size down *)

Lemma shrink_spec (target rest_size p q : Z) :
  2 <= p -> 1 <= q ->
  forall k : nat,
    exists e,
      0 <= e <= Z.of_nat k /\
      shrink k target rest_size p (q * p ^ Z.of_nat k) = q * p ^ e /\
      (e = 0 \/ q * p ^ e * rest_size <= target).
Proof.
  intros Hp Hq. induction k as [| k IH].
  - exists 0. simpl. repeat split; auto; lia.
  - cbn [shrink]. destruct (Z.gtb_spec (q * p ^ Z.of_nat (S k) * rest_size) target) as [G | G].
    + rewrite Nat2Z.inj_succ, Z.pow_succ_r by lia.
      replace (q * (p * p ^ Z.of_nat k)) with (q * p ^ Z.of_nat k * p) by ring.
      rewrite Z.quot_mul by lia.
      destruct IH as (e & He & -> & Hstop).
      exists e. repeat split; auto; lia.
    + exists (Z.of_nat (S k)). repeat split; auto; lia.
Qed.

Lemma shrink_stopped (k : nat) (target rest_size p s : Z) :
  s * rest_size <= target -> shrink k target rest_size p s = s.
Proof.
  intros H. destruct k; simpl; [reflexivity |].
  destruct (Z.gtb_spec (s * rest_size) target); [lia | reflexivity].
Qed.

Lemma reduce_stopped (ps factors : list Z) (target rest_size s : Z) :
  s * rest_size <= target -> reduce ps factors target rest_size s = s.
Proof.
  intros H. revert factors. induction ps as [| p ps IH]; intros [| f fs]; simpl; auto.
  rewrite shrink_stopped by exact H. apply IH.
Qed.

Lemma reduce_spec (target rest_size : Z) (ps : list Z) :
  Forall (fun p => 2 <= p) ps ->
  forall factors, Forall (fun f => 0 <= f) factors ->
  forall q, 1 <= q ->
    exists m,
      reduce ps factors target rest_size (q * prime_powers ps factors) = q * m /\
      1 <= m /\ (m | prime_powers ps factors) /\
      (m = 1 \/ q * m * rest_size <= target).
Proof.
  induction 1 as [| p ps Hp Hps IH]; intros fs Hfs q Hq.
  - exists 1. simpl. repeat split; auto; try lia. apply Z.divide_refl.
  - destruct Hfs as [| f fs Hf Hfs].
    + exists 1. simpl. repeat split; auto; try lia. apply Z.divide_refl.
    + cbn [reduce prime_powers].
      pose proof (prime_powers_pos ps fs Hps Hfs) as Hpp.
      set (PP := prime_powers ps fs) in *.
      replace (q * (p ^ f * PP)) with (q * PP * p ^ Z.of_nat (Z.to_nat f))
        by (rewrite Z2Nat.id by lia; ring).
      destruct (shrink_spec target rest_size p (q * PP) Hp ltac:(nia) (Z.to_nat f))
        as (e & He & -> & Hstop).
      rewrite Z2Nat.id in He by lia.
      destruct (Z.eq_dec e 0) as [-> | Hne].
      * rewrite Z.pow_0_r, Z.mul_1_r. subst PP.
        destruct (IH fs Hfs q Hq) as (m & -> & Hm & Hdiv & Hm1).
        exists m. repeat split; auto.
        apply Z.divide_mul_r. exact Hdiv.
      * destruct Hstop as [-> | Hstop]; [lia |].
        rewrite reduce_stopped by exact Hstop.
        assert (0 < p ^ e) by (apply Z.pow_pos_nonneg; lia).
        exists (PP * p ^ e). repeat split.
        -- ring.
        -- nia.
        -- exists (p ^ (f - e)).
           replace (p ^ f) with (p ^ (f - e) * p ^ e)
             by (rewrite <- Z.pow_add_r by lia; f_equal; lia).
           ring.
        -- right. replace (q * (PP * p ^ e)) with (q * PP * p ^ e) by ring.
           exact Hstop.
Qed.

(** What the search reaches before the final comparison with the ceiling:
    a divisor [r] of the dimension size, a multiple of the part [t] of the
    dimension size that no table prime divides, and equal to [t] unless the
    target was met first. *)
Lemma BestChunkSize_reached (max_size target_size split_size rest_size : Z) :
  1 <= split_size ->
  exists r t,
    BestChunkSize max_size target_size split_size rest_size
      = Ok (if r <=? max_size then r else -1) /\
    1 <= r /\ (r | split_size) /\
    1 <= t /\ (t | r) /\ (t | split_size) /\
    Forall (fun p => ~ (p | t)) primes /\
    (r = t \/ r * rest_size <= target_size).
Proof.
  intros Hn. unfold BestChunkSize.
  destruct (factorize_spec primes primes_ge_2 split_size Hn)
    as (fs & t & -> & Hlen & Hfs & Ht & Heq & Hrough).
  cbn [bind].
  destruct (reduce_spec target_size rest_size primes primes_ge_2 fs Hfs t Ht)
    as (m & Hred & Hm & Hdiv & Hstop).
  rewrite <- Heq in Hred. rewrite Hred.
  exists (t * m), t. repeat split; auto.
  - nia.
  - rewrite Heq. apply Z.mul_divide_mono_l. exact Hdiv.
  - apply Z.divide_factor_l.
  - rewrite Heq. apply Z.divide_factor_l.
  - destruct Hstop as [-> | Hstop]; [left; ring | right; exact Hstop].
Qed.

Lemma BestChunkSize_total (max_size target_size split_size rest_size : Z) :
  1 <= split_size ->
  exists v,
    BestChunkSize max_size target_size split_size rest_size = Ok v /\
    (v = -1 \/ (1 <= v /\ (v | split_size) /\ v <= max_size)).
Proof.
  intros Hn.
  destruct (BestChunkSize_reached max_size target_size split_size rest_size Hn)
    as (r & t & -> & Hr & Hdiv & _).
  eexists. split; [reflexivity |].
  destruct (Z.leb_spec r max_size); [right | left]; auto.
Qed.

Lemma rough_coprime_smooth (t m : Z) :
  Forall (fun p => ~ (p | t)) primes -> smooth m -> Z.coprime t m.
Proof.
  intros Hrough (l & Hl & ->).
  induction Hl as [| p l Hp Hl IH]; simpl.
  - apply Z.coprime_1_r.
  - apply Z.coprime_mul_r; [| exact IH].
    unfold Z.coprime. rewrite Z.gcd_comm.
    apply Z.coprime_prime_l.
    + pose proof primes_prime as HP. rewrite Forall_forall in HP. auto.
    + rewrite Forall_forall in Hrough. auto.
Qed.

(** ** Claim C4: what the chunk-size search returns *)

(** C4, as amended: for a dimension size of at least one the search returns;
    a value other than [-1] divides the dimension size and is at most the
    ceiling; and when the search fails, with a rest count of at least one
    and a target no larger than the ceiling, no divisor of the dimension
    size whose cofactor is a product of table primes is within the ceiling.
    Divisors whose cofactor has a prime factor above 311 are never tried. *)
Theorem BestChunkSize_divides_or_fails
    (max_size target_size split_size rest_size : Z) :
  1 <= split_size ->
  exists v,
    BestChunkSize max_size target_size split_size rest_size = Ok v /\
    (v <> -1 -> (v | split_size) /\ v <= max_size) /\
    (1 <= rest_size -> target_size <= max_size -> v = -1 ->
     forall d m, 0 < d -> split_size = d * m -> smooth m -> max_size < d).
Proof.
  intros Hn.
  destruct (BestChunkSize_reached max_size target_size split_size rest_size Hn)
    as (r & t & -> & Hr & Hdiv & Ht & Htr & Htn & Hrough & Hstop).
  eexists. split; [reflexivity |].
  destruct (Z.leb_spec r max_size) as [Hle | Hgt].
  - split; [auto | lia].
  - split; [intros H; contradiction H; reflexivity |].
    intros Hrest Htm _ d m Hd Heq Hsm.
    assert (Hrt : r = t) by (destruct Hstop; [assumption | nia]).
    subst r.
    assert (Htd : (t | d)).
    { apply Z.gauss with (m := m).
      - rewrite Z.mul_comm, <- Heq. exact Htn.
      - apply rough_coprime_smooth; assumption. }
    apply Z.divide_pos_le in Htd; lia.
Qed.

(** The search on Example 2 of the specification: dimension size 20000,
    rest count 128. *)
Lemma BestChunkSize_divides_or_fails_witness :
  exists v,
    BestChunkSize 1000000 200000 20000 128 = Ok v /\
    (v <> -1 -> (v | 20000) /\ v <= 1000000) /\
    (1 <= 128 -> 200000 <= 1000000 -> v = -1 ->
     forall d m, 0 < d -> 20000 = d * m -> smooth m -> 1000000 < d).
Proof.
  apply (BestChunkSize_divides_or_fails 1000000 200000 20000 128). lia.
Defined.

(** C4 as stated fails: for the dimension size 1000003 the search returns
    [-1], yet the divisor 1 is within the ceiling. *)
Lemma BestChunkSize_fails_with_divisor_in_ceiling :
  ~ (BestChunkSize 1000000 200000 1000003 1 = Ok (-1) ->
     forall d, 0 < d -> (d | 1000003) -> ~ d <= 1000000).
Proof.
  intros H.
  apply (H ltac:(vm_compute; reflexivity) 1); [lia | apply Z.divide_1_l | lia].
Qed.

(** ** The dimension selector *)

Lemma for_loop_invariant {St : Type} (body : Z -> St -> result St)
    (I : Z -> St -> Prop) (n : nat) :
  forall i s,
    I i s ->
    (forall j t, i <= j < i + Z.of_nat n -> I j t ->
                 exists t', body j t = Ok t' /\ I (j + 1) t') ->
    exists s', for_loop n i body s = Ok s' /\ I (i + Z.of_nat n) s'.
Proof.
  induction n as [| n IH]; intros i s Hi Hstep.
  - exists s. simpl. rewrite Z.add_0_r. auto.
  - cbn [for_loop].
    destruct (Hstep i s ltac:(lia) Hi) as (t & -> & Ht). cbn [bind].
    destruct (IH (i + 1) t Ht) as (s' & -> & Hs').
    + intros j u Hj Hu. apply Hstep; [lia | exact Hu].
    + exists s'. split; [reflexivity |].
      replace (i + Z.of_nat (S n)) with (i + 1 + Z.of_nat n) by lia. exact Hs'.
Qed.

Section Selector.

Variable this : IntermediateTensorSplitterVisitor.
Variable inst : HloInstruction.
Variable excluded : list Z.

Lemma BestSplitSize_total (i d : Z) :
  dimensions_at (shape_of inst) i = Ok d -> 1 <= d ->
  exists v, BestSplitSize this inst i = Ok v /\
            (v = -1 \/ (1 <= v /\ (v | d) /\ v <= max_intermediate_size this)).
Proof.
  intros Hd Hpos. unfold BestSplitSize. rewrite Hd. cbn [bind].
  destruct (Z.eqb_spec d 0); [lia |].
  apply BestChunkSize_total. exact Hpos.
Qed.

Lemma splittable_dimension (i : Z) :
  splittable this inst i ->
  exists d, dimensions_at (shape_of inst) i = Ok d /\ d <> 0.
Proof.
  intros (v & Hv & _). unfold BestSplitSize in Hv.
  apply bind_Ok in Hv. destruct Hv as (d & Hd & Hv).
  exists d. split; [exact Hd |].
  destruct (Z.eqb_spec d 0); [discriminate | assumption].
Qed.

Lemma BestSplitDim_body_invariant (i : Z) (best : Z * Z) :
  0 <= i < rank (shape_of inst) ->
  BestSplitDim_invariant this inst excluded i best ->
  exists best',
    BestSplitDim_body this inst excluded i best = Ok best' /\
    BestSplitDim_invariant this inst excluded (i + 1) best'.
Proof.
  destruct best as [bd bs]. intros Hi (Hbs & Hbest & Hmax).
  unfold BestSplitDim_body.
  destruct (existsb (Z.eqb i) excluded) eqn:Hex.
  { apply existsb_exists in Hex. destruct Hex as (x & Hx & Hxi).
    apply Z.eqb_eq in Hxi. subst x.
    exists (bd, bs). split; [reflexivity |]. split; [exact Hbs |]. split.
    - destruct Hbest as [? | (? & ?)]; [left; assumption | right; split; [lia | assumption]].
    - intros j dj Hj Hnex Hdj Hpos Hsp.
      assert (j <> i) by (intros ->; contradiction).
      apply (Hmax j dj); auto; lia. }
  assert (Hnin : ~ In i excluded).
  { intros Hin. apply not_true_iff_false in Hex. apply Hex.
    apply existsb_exists. exists i. split; [exact Hin | apply Z.eqb_refl]. }
  destruct (at_in_range (dimensions (shape_of inst)) i Hi) as (d & Hd).
  fold (dimensions_at (shape_of inst) i) in Hd. rewrite Hd. cbn [bind].
  assert (Hkeep :
    (0 < d -> splittable this inst i -> d <= bs /\ bd <> -1) ->
    BestSplitDim_invariant this inst excluded (i + 1) (bd, bs)).
  { intros Hi'. split; [exact Hbs |]. split.
    - destruct Hbest as [? | (? & ?)]; [left; assumption | right; split; [lia | assumption]].
    - intros j dj Hj Hnex Hdj Hpos Hsp.
      destruct (Z.eq_dec j i) as [-> | Hne].
      + rewrite Hd in Hdj. injection Hdj as <-.
        destruct (Hi' Hpos Hsp) as [Hle Hbd]. repeat split; auto.
        intros _. destruct Hbest as [[? _] | (? & _)]; [contradiction | lia].
      + apply (Hmax j dj); auto; lia. }
  destruct (Z.gtb_spec d bs) as [Hgt | Hle].
  - destruct (BestSplitSize_total i d Hd ltac:(lia)) as (v & Hv & Hvspec).
    rewrite Hv. cbn [bind].
    destruct (Z.eqb_spec v (-1)) as [-> | Hv1]; cbn [negb].
    + exists (bd, bs). split; [reflexivity |]. apply Hkeep.
      intros _ (v' & Hv' & Hne). rewrite Hv in Hv'. injection Hv' as <-.
      contradiction.
    + exists (i, d). split; [reflexivity |].
      split; [lia |]. split.
      * right. repeat split; auto; try lia. exists v. auto.
      * intros j dj Hj Hnex Hdj Hpos Hsp.
        destruct (Z.eq_dec j i) as [-> | Hne].
        -- rewrite Hd in Hdj. injection Hdj as <-. repeat split; lia.
        -- destruct (Hmax j dj) as (_ & Hdjle & _); auto; lia.
  - exists (bd, bs). split; [reflexivity |]. apply Hkeep.
    intros Hpos _. split; [exact Hle |].
    destruct Hbest as [[_ ->] | (Hr & _)]; lia.
Qed.

Lemma BestSplitDim_returns :
  exists best_dim best_size,
    BestSplitDim this inst excluded = Ok best_dim /\
    BestSplitDim_invariant this inst excluded (rank (shape_of inst))
                           (best_dim, best_size).
Proof.
  unfold BestSplitDim.
  destruct (for_loop_invariant (BestSplitDim_body this inst excluded)
              (BestSplitDim_invariant this inst excluded)
              (length (dimensions (shape_of inst))) 0 (-1, 0))
    as ([bd bs] & -> & Hinv).
  - split; [lia |]. split; [left; auto |]. intros; lia.
  - intros j t Hj Ht. apply BestSplitDim_body_invariant; [exact Hj | exact Ht].
  - exists bd, bs. split; [reflexivity | exact Hinv].
Qed.

End Selector.

(** ** Claims C5 and C9: the dimension selector *)

(** C5: on a shape with non-negative dimension sizes, [BestSplitDim]
    returns the index of the largest dimension among those that are not
    excluded and for which [BestSplitSize] succeeds, the lowest such index
    when several have that size; it returns [-1] exactly when no dimension
    qualifies. *)
Theorem BestSplitDim_largest_splittable
    (this : IntermediateTensorSplitterVisitor) (inst : HloInstruction)
    (excluded : list Z) :
  Forall (fun d => 0 <= d) (dimensions (shape_of inst)) ->
  exists best,
    BestSplitDim this inst excluded = Ok best /\
    (best = -1 <->
     forall j, 0 <= j < rank (shape_of inst) -> ~ In j excluded ->
               ~ splittable this inst j) /\
    (best <> -1 ->
     0 <= best < rank (shape_of inst) /\ ~ In best excluded /\
     splittable this inst best /\
     exists size,
       dimensions_at (shape_of inst) best = Ok size /\
       forall j dj,
         0 <= j < rank (shape_of inst) -> ~ In j excluded ->
         splittable this inst j ->
         dimensions_at (shape_of inst) j = Ok dj ->
         dj <= size /\ (dj = size -> best <= j)).
Proof.
  intros Hnonneg.
  destruct (BestSplitDim_returns this inst excluded)
    as (bd & bs & Hret & _ & Hbest & Hmax).
  assert (Hpos : forall j dj,
             dimensions_at (shape_of inst) j = Ok dj ->
             splittable this inst j -> 0 < dj).
  { intros j dj Hdj Hsp.
    destruct (splittable_dimension this inst j Hsp) as (d' & Hd' & Hne).
    rewrite Hdj in Hd'. injection Hd' as <-.
    apply at_Ok in Hdj. destruct Hdj as [_ Hnth].
    apply nth_error_In in Hnth. rewrite Forall_forall in Hnonneg.
    apply Hnonneg in Hnth. lia. }
  exists bd. split; [exact Hret |]. split; [split |].
  - intros -> j Hj Hnex Hsp.
    destruct (splittable_dimension this inst j Hsp) as (dj & Hdj & _).
    destruct (Hmax j dj Hj Hnex Hdj (Hpos j dj Hdj Hsp) Hsp) as [Hne _].
    contradiction.
  - intros Hnone. destruct Hbest as [[-> _] | (Hr & Hnex & Hsp & _)];
      [reflexivity |].
    exfalso. exact (Hnone bd Hr Hnex Hsp).
  - intros Hne. destruct Hbest as [[-> _] | (Hr & Hnex & Hsp & Hsize & Hbs)];
      [contradiction |].
    repeat split; auto; try lia.
    exists bs. split; [exact Hsize |].
    intros j dj Hj Hnexj Hspj Hdj.
    destruct (Hmax j dj Hj Hnexj Hdj (Hpos j dj Hdj Hspj) Hspj) as (_ & Hle & Hfirst).
    auto.
Qed.

(** The selector on a 20000 x 4096 product whose second dimension is
    contracted. *)
Lemma BestSplitDim_largest_splittable_witness :
  exists best,
    BestSplitDim run_visitor inner_rows [1] = Ok best /\
    (best = -1 <->
     forall j, 0 <= j < rank (shape_of inner_rows) -> ~ In j [1] ->
               ~ splittable run_visitor inner_rows j) /\
    (best <> -1 ->
     0 <= best < rank (shape_of inner_rows) /\ ~ In best [1] /\
     splittable run_visitor inner_rows best /\
     exists size,
       dimensions_at (shape_of inner_rows) best = Ok size /\
       forall j dj,
         0 <= j < rank (shape_of inner_rows) -> ~ In j [1] ->
         splittable run_visitor inner_rows j ->
         dimensions_at (shape_of inner_rows) j = Ok dj ->
         dj <= size /\ (dj = size -> best <= j)).
Proof.
  apply (BestSplitDim_largest_splittable run_visitor inner_rows [1]).
  simpl. repeat (constructor; [lia |]). constructor.
Defined.

(** C9: [BestSplitDim] always returns, and [BestSplitSize] succeeds on
    every dimension other than [-1] that it returns. *)
Theorem BestSplitDim_dimension_splittable
    (this : IntermediateTensorSplitterVisitor) (inst : HloInstruction)
    (excluded : list Z) :
  exists best,
    BestSplitDim this inst excluded = Ok best /\
    (best <> -1 ->
     exists v, BestSplitSize this inst best = Ok v /\ v <> -1).
Proof.
  destruct (BestSplitDim_returns this inst excluded)
    as (bd & bs & Hret & _ & Hbest & _).
  exists bd. split; [exact Hret |].
  intros Hne. destruct Hbest as [[-> _] | (_ & _ & Hsp & _)];
    [contradiction | exact Hsp].
Qed.

(** ** Claim C10: the thresholds of [Run] *)

(** C10: whatever the module and whatever the traversal does with the
    visitor, [Run] hands it a visitor whose ceiling is 1,000,000 and whose
    target is 200,000; [Run] takes no other argument. *)
Theorem Run_fixed_thresholds (HloModule : Type)
    (RunOnModule : IntermediateTensorSplitterVisitor -> HloModule -> result bool)
    (module : HloModule) :
  Run HloModule RunOnModule module =
  RunOnModule {| max_intermediate_size := 1000000;
                 target_intermediate_size := 200000 |} module.
Proof.
  reflexivity.
Qed.

(** ** The aborts the rewrite can take *)

Lemma bind_Abort {A B : Type} (m : result A) (k : A -> result B) (f : Failure) :
  bind m k = Abort f ->
  m = Abort f \/ exists a, m = Ok a /\ k a = Abort f.
Proof.
  destruct m as [a | f']; simpl; intros H.
  - right. exists a. auto.
  - left. injection H as ->. reflexivity.
Qed.

Lemma at_Abort {A : Type} (v : list A) (i : Z) (f : Failure) :
  at_ v i = Abort f -> f = OutOfRange.
Proof.
  unfold at_. destruct ((i <? 0) || (Z.of_nat (length v) <=? i)).
  - intros [= <-]. reflexivity.
  - destruct (nth_error v (Z.to_nat i)); [discriminate | intros [= <-]; reflexivity].
Qed.

Lemma set_dimensions_Abort (s : Shape) (i v : Z) (f : Failure) :
  set_dimensions s i v = Abort f -> f = OutOfRange.
Proof.
  unfold set_dimensions, set_at.
  destruct ((i <? 0) || (Z.of_nat (length (dimensions s)) <=? i)); simpl.
  - intros [= <-]. reflexivity.
  - discriminate.
Qed.

Lemma slice_loop_Abort (params : list (list HloInstruction)) :
  forall split_op join_op split_shape split_dim split_size start limit stride
         dims_done bound idx f,
    slice_loop params split_op join_op split_shape split_dim split_size
               start limit stride dims_done bound idx = Abort f ->
    f = OutOfRange.
Proof.
  induction params as [| p params IH]; intros until f; simpl.
  - destruct (dims_done <? bound); [intros [= <-]; reflexivity | discriminate].
  - destruct (dims_done <? bound); [| discriminate].
    intros H. apply bind_Abort in H. destruct H as [H | ([[sl ps] ix] & _ & H)].
    + eapply IH. exact H.
    + discriminate.
Qed.

Lemma BuildDot_Abort (s : Shape) (lhs rhs : HloInstruction)
    (dnums : DotDimensionNumbers) (split_dim split_size : Z) (st : BuildState)
    (f : Failure) :
  BuildDot (Dot s lhs rhs dnums) s lhs rhs dnums split_dim split_size st = Abort f ->
  f <> CheckFailed.
Proof.
  unfold BuildDot. intros H.
  apply bind_Abort in H. destruct H as [H | (dot_shape & _ & H)].
  { apply set_dimensions_Abort in H. subst f. discriminate. }
  destruct (split_dim <? rank (shape_of lhs) -
                          Z.of_nat (length (lhs_contracting_dimensions dnums)));
    (apply bind_Abort in H; destruct H as [H | (split_shape & _ & H)];
     [apply set_dimensions_Abort in H; subst f; discriminate |];
     apply bind_Abort in H; destruct H as [H | (bound & _ & H)];
     [apply at_Abort in H; subst f; discriminate |];
     apply bind_Abort in H; destruct H as [H | ([[sl ps] [[i1 i2] |]] & _ & H)];
     [apply slice_loop_Abort in H; subst f; discriminate
     | simpl in H; discriminate
     | injection H as <-; discriminate]).
Qed.

Lemma Build_Abort (inst : HloInstruction) :
  OperandCanBeSplit inst = true ->
  forall split_dim split_size st f,
    BuildComputationAndParameters inst split_dim split_size st = Abort f ->
    f <> CheckFailed.
Proof.
  revert inst. fix IH 1. intros inst Hcan split_dim split_size st f H.
  destruct inst; try discriminate Hcan.
  - (* Elementwise *)
    simpl in Hcan, H. destruct has_side_effect; [discriminate |].
    destruct operands as [| operand [| ? ?]]; try discriminate.
    apply bind_Abort in H. destruct H as [H | ([new_operand st'] & _ & H)].
    + exact (IH operand Hcan _ _ _ _ H).
    + discriminate.
  - (* Transpose *)
    simpl in Hcan, H.
    apply bind_Abort in H. destruct H as [H | (d & _ & H)].
    + unfold permutation_at in H. destruct (at_ permutation split_dim); [discriminate |].
      injection H as <-. discriminate.
    + apply bind_Abort in H. destruct H as [H | ([new_operand st'] & _ & H)].
      * exact (IH inst Hcan _ _ _ _ H).
      * discriminate.
  - (* Dot *)
    simpl in H. eapply BuildDot_Abort. exact H.
Qed.

Lemma partition_loop_Abort (fuel : nat) :
  forall bound split_size full_size params f,
    partition_loop fuel bound split_size full_size params = Abort f ->
    f = Diverged.
Proof.
  induction fuel as [| fuel IH]; intros bound ss full params f; simpl.
  - destruct (full <? bound); [intros [= <-]; reflexivity | discriminate].
  - destruct (full <? bound); [apply IH | discriminate].
Qed.

(** Chunks of a size that divides the dimension tile it exactly. *)
Lemma partition_loop_tiles (split_size : Z) (k : nat) :
  1 <= split_size ->
  forall fuel full_size params,
    (k <= fuel)%nat ->
    partition_loop fuel (full_size + Z.of_nat k * split_size) split_size
                   full_size params
    = Ok (params ++ repeat [] k, full_size + Z.of_nat k * split_size).
Proof.
  intros Hss. induction k as [| k IH]; intros fuel full params Hk.
  - simpl. rewrite Z.add_0_r, app_nil_r.
    destruct fuel; simpl; rewrite Z.ltb_irrefl; reflexivity.
  - destruct fuel as [| fuel]; [lia |]. cbn [partition_loop].
    destruct (Z.ltb_spec full (full + Z.of_nat (S k) * split_size)) as [_ | Hge];
      [| nia].
    replace (full + Z.of_nat (S k) * split_size)
      with (full + split_size + Z.of_nat k * split_size) by lia.
    rewrite IH by lia. cbn [repeat]. rewrite <- app_assoc. reflexivity.
Qed.

(** The partition of lines 285-288 with the chunk size [BestSplitSize]
    returns: as many chunks as the quotient, reaching the dimension size
    exactly. *)
Lemma partition_loop_of_BestSplitSize
    (this : IntermediateTensorSplitterVisitor) (inst : HloInstruction)
    (split_dim d v : Z) :
  dimensions_at (shape_of inst) split_dim = Ok d -> 1 <= d ->
  BestSplitSize this inst split_dim = Ok v -> v <> -1 ->
  partition_loop (Z.to_nat d) d v 0 []
  = Ok (repeat [] (Z.to_nat (d / v)), d).
Proof.
  intros Hd Hpos Hv Hne.
  destruct (BestSplitSize_total this inst split_dim d Hd Hpos)
    as (v' & Hv' & Hspec).
  rewrite Hv in Hv'. injection Hv' as <-.
  destruct Hspec as [-> | (Hv1 & (k & Hk) & _)]; [contradiction |].
  assert (Hq : d / v = k) by (subst d; apply Z.div_mul; lia).
  rewrite Hq.
  assert (Hk0 : 0 <= k) by nia.
  pose proof (partition_loop_tiles v (Z.to_nat k) Hv1 (Z.to_nat d) 0 []) as H.
  rewrite Z2Nat.id in H by exact Hk0. cbn [Z.add app] in H.
  rewrite <- Hk in H. apply H.
  apply Z2Nat.inj_le; nia.
Qed.

Lemma emit_parts_returns (s : Shape) (lhs rhs : HloInstruction)
    (dnums : DotDimensionNumbers) (comp_root : HloInstruction)
    (part_shape : Shape) (split_is_lhs : bool)
    (params : list (list HloInstruction)) :
  exists added parts,
    emit_parts (Dot s lhs rhs dnums) lhs rhs comp_root part_shape split_is_lhs
               params = Ok (added, parts) /\
    length parts = length params /\
    Forall (fun p => shape_of p = part_shape) parts.
Proof.
  induction params as [| operands params (added & parts & IH & Hlen & Hall)].
  - exists [], []. simpl. auto.
  - cbn [emit_parts]. destruct split_is_lhs; cbn [CloneWithNewOperands bind];
      rewrite IH; cbn [bind]; eexists; eexists;
      (split; [reflexivity |]); simpl; auto.
Qed.

Lemma HandleDot_split_Abort (this : IntermediateTensorSplitterVisitor)
    (s : Shape) (lhs rhs : HloInstruction) (dnums : DotDimensionNumbers)
    (split_is_lhs : bool) (g : Graph) (f : Failure) :
  OperandCanBeSplit (if split_is_lhs then lhs else rhs) = true ->
  HandleDot_split this (Dot s lhs rhs dnums) lhs rhs dnums split_is_lhs g
    = Abort f ->
  f <> CheckFailed.
Proof.
  intros Hcan. unfold HandleDot_split.
  set (split_inst := if split_is_lhs then lhs else rhs) in *.
  set (excluded := if split_is_lhs then lhs_contracting_dimensions dnums
                   else rhs_contracting_dimensions dnums).
  destruct (BestSplitDim_returns this split_inst excluded)
    as (bd & bs & -> & _ & Hbest & _).
  cbn [bind]. destruct (Z.eqb_spec bd (-1)) as [| Hbd]; [discriminate |].
  destruct Hbest as [[? _] | (_ & _ & (v & Hv & Hne) & Hsize & Hpos)];
    [contradiction |].
  rewrite Hv. cbn [bind]. destruct (Z.eqb_spec v (-1)); [contradiction |].
  rewrite Hsize. cbn [bind]. intros H.
  apply bind_Abort in H. destruct H as [H | ([params full] & _ & H)].
  { apply partition_loop_Abort in H. subst f. discriminate. }
  unfold CHECK_assign in H. destruct (Z.eqb_spec bs 0); [lia |]. cbn [bind] in H.
  apply bind_Abort in H. destruct H as [H | ([comp_root st] & _ & H)].
  { eapply Build_Abort; eassumption. }
  apply bind_Abort in H. destruct H as [H | (part_shape & _ & H)].
  { apply set_dimensions_Abort in H. subst f. discriminate. }
  destruct (emit_parts_returns s lhs rhs dnums comp_root part_shape split_is_lhs
              (parameters st)) as (added & parts & E & _).
  rewrite E in H. discriminate.
Qed.

(** No [CHECK] of the rewrite fails on a dot: not the one on the node kind
    in the builder, not the one on the chunk size, and not the one after
    the partition. *)
Lemma HandleDot_checks_hold (this : IntermediateTensorSplitterVisitor)
    (s : Shape) (lhs rhs : HloInstruction) (dnums : DotDimensionNumbers)
    (g : Graph) :
  HandleDot this (Dot s lhs rhs dnums) g <> Fatal CheckFailed.
Proof.
  unfold HandleDot.
  destruct (OperandShouldBeSplit this lhs && OperandCanBeSplit lhs) eqn:Hl.
  - cbn [orb].
    destruct (HandleDot_split this (Dot s lhs rhs dnums) lhs rhs dnums true g)
      as [g' | f] eqn:E; [discriminate |].
    apply HandleDot_split_Abort in E.
    + intros [= ->]. contradiction.
    + apply andb_true_iff in Hl. apply Hl.
  - cbn [orb].
    destruct (OperandShouldBeSplit this rhs && OperandCanBeSplit rhs) eqn:Hr;
      [| discriminate].
    destruct (HandleDot_split this (Dot s lhs rhs dnums) lhs rhs dnums false g)
      as [g' | f] eqn:E; [discriminate |].
    apply HandleDot_split_Abort in E.
    + intros [= ->]. contradiction.
    + apply andb_true_iff in Hr. apply Hr.
Qed.

(** ** The shape of the root the builder returns *)

Lemma BuildDot_root_shape (s : Shape) (lhs rhs : HloInstruction)
    (dnums : DotDimensionNumbers) (split_dim split_size : Z)
    (st st' : BuildState) (root : HloInstruction) :
  BuildDot (Dot s lhs rhs dnums) s lhs rhs dnums split_dim split_size st
    = Ok (root, st') ->
  set_dimensions s split_dim split_size = Ok (shape_of root).
Proof.
  unfold BuildDot. intros H.
  apply bind_Ok in H. destruct H as (dot_shape & Hshape & H).
  destruct s as [ty dims]. cbn [element_type dimensions] in Hshape.
  rewrite Hshape. f_equal.
  destruct (split_dim <? rank (shape_of lhs) -
                          Z.of_nat (length (lhs_contracting_dimensions dnums)));
    (apply bind_Ok in H; destruct H as (split_shape & _ & H);
     apply bind_Ok in H; destruct H as (bound & _ & H);
     apply bind_Ok in H; destruct H as ([[sl ps] [[i1 i2] |]] & _ & H);
     [| discriminate];
     cbn [CloneWithNewOperands bind] in H; injection H as <- _; reflexivity).
Qed.

Lemma clone_over_shape (inst new_operand root : HloInstruction)
    (st st' : BuildState) :
  clone_over inst new_operand st = Ok (root, st') ->
  shape_of root = shape_of new_operand.
Proof.
  unfold clone_over. intros H.
  apply bind_Ok in H. destruct H as (r & Hr & H). injection H as <- _.
  destruct inst; simpl in Hr; try discriminate; injection Hr as <-; reflexivity.
Qed.

(** The shape of the root the builder returns: the shape of the innermost
    dot, resized at the split dimension mapped through the transposes on
    the way.  No transpose permutes it back. *)
Lemma Build_root_shape (inst : HloInstruction) :
  forall split_dim split_size st root st',
    BuildComputationAndParameters inst split_dim split_size st = Ok (root, st') ->
    exists s d,
      split_location inst split_dim = Ok (s, d) /\
      set_dimensions s d split_size = Ok (shape_of root).
Proof.
  revert inst. fix IH 1. intros inst split_dim split_size st root st' H.
  destruct inst; try discriminate H.
  - simpl in H |- *. destruct has_side_effect; [discriminate |].
    destruct operands as [| operand [| ? ?]]; try discriminate.
    apply bind_Ok in H. destruct H as ([new_operand st1] & Hrec & H).
    apply clone_over_shape in H. rewrite H.
    exact (IH operand _ _ _ _ _ Hrec).
  - simpl in H |- *.
    apply bind_Ok in H. destruct H as (d & -> & H). cbn [bind].
    apply bind_Ok in H. destruct H as ([new_operand st1] & Hrec & H).
    apply clone_over_shape in H. rewrite H.
    exact (IH inst _ _ _ _ _ Hrec).
  - simpl in H |- *. exists shape, split_dim. split; [reflexivity |].
    eapply BuildDot_root_shape. exact H.
Qed.

(** ** Evaluations of the rewrite *)

Lemma Returns_with (o : Outcome) (P : Graph -> Prop) :
  match o with Returns g => P g | _ => False end ->
  exists g, o = Returns g /\ P g.
Proof.
  destruct o as [g | g | f]; intros H; try contradiction.
  exists g. split; [reflexivity | exact H].
Qed.

(** On [(b . c) . a] the rewrite is the intended one: [b] is cut into 800
    slices of 25 rows, the factored-out dot has shape 25 x 4096, every call
    passes the slice and [c], every per-chunk dot has shape 25 x 10 and the
    parts are joined along dimension 0. *)
Example HandleDot_lhs_chain :
  exists g,
    HandleDot run_visitor chain_lhs empty_graph = Returns g /\
    (slices_of (instructions g) =
       map (fun k => Slice (f32 [25; 128]) (Param 1 (f32 [20000; 128]) "b")
                           [25 * Z.of_nat k; 0] [25 * Z.of_nat k + 25; 128]
                           [1; 1])
           (seq 0 800) /\
     map root_instruction (embedded_computations g) =
       [Dot (f32 [25; 4096])
            (Param 0 (f32 [25; 128]) "dot_split_tensor")
            (Param 1 (f32 [128; 4096]) "dot_join_tensor") matmul] /\
     call_operand_counts (instructions g) = repeat 2%nat 800 /\
     concatenations g = [(f32 [20000; 10], 0, repeat (f32 [25; 10]) 800)]).
Proof.
  apply Returns_with. vm_compute. repeat split; reflexivity.
Qed.

(** C1: on [a . (b . c)] the rewrite succeeds and leaves a graph that cannot
    compute the original product: [c] is cut along its contracted
    dimension of size 128 into six pieces of 25 rows, the last reaching row
    150, the factored-out dot multiplies a 4096 x 128 by a 25 x 20000
    matrix, and 794 of the 800 calls pass no operand to a computation with
    two parameters. *)
Theorem HandleDot_rhs_chain_not_equivalent :
  exists g,
    HandleDot run_visitor chain_rhs empty_graph = Returns g /\
    (OperandShouldBeSplit run_visitor inner_bc && OperandCanBeSplit inner_bc
       = true /\
     slices_of (instructions g) =
       map (fun k => Slice (f32 [25; 20000]) (Param 2 (f32 [128; 20000]) "c")
                           [25 * k; 0] [25 * k + 25; 20000] [1; 1])
           [0; 1; 2; 3; 4; 5] /\
     map root_instruction (embedded_computations g) =
       [Dot (f32 [4096; 25])
            (Param 1 (f32 [4096; 128]) "dot_join_tensor")
            (Param 0 (f32 [25; 20000]) "dot_split_tensor") matmul] /\
     call_operand_counts (instructions g) = repeat 2%nat 6 ++ repeat 0%nat 794).
Proof.
  apply Returns_with. vm_compute. repeat split; reflexivity.
Qed.

(** What a successful rewrite emits, whatever the dot: a concatenation with
    the shape of the dot, along [output_split_dim], of parts that all have
    the shape of the dot resized at [split_dim], the index of the split in
    the operand. *)
Lemma HandleDot_split_emits (this : IntermediateTensorSplitterVisitor)
    (s : Shape) (lhs rhs : HloInstruction) (dnums : DotDimensionNumbers)
    (split_is_lhs : bool) (g g' : Graph) (split_dim split_size : Z) :
  let split_inst := if split_is_lhs then lhs else rhs in
  BestSplitDim this split_inst
               (if split_is_lhs then lhs_contracting_dimensions dnums
                else rhs_contracting_dimensions dnums) = Ok split_dim ->
  split_dim <> -1 ->
  BestSplitSize this split_inst split_dim = Ok split_size ->
  HandleDot_split this (Dot s lhs rhs dnums) lhs rhs dnums split_is_lhs g
    = Ok g' ->
  exists part_shape parts,
    set_dimensions s split_dim split_size = Ok part_shape /\
    Forall (fun p => shape_of p = part_shape) parts /\
    replaced g' =
      replaced g ++
      [(Dot s lhs rhs dnums,
        Concatenate s parts (output_split_dim lhs dnums split_is_lhs split_dim))].
Proof.
  intros split_inst Hdim Hne Hsize. unfold HandleDot_split.
  fold split_inst. rewrite Hdim. cbn [bind].
  destruct (Z.eqb_spec split_dim (-1)); [contradiction |].
  rewrite Hsize. cbn [bind]. destruct (split_size =? -1); [discriminate |].
  intros H.
  apply bind_Ok in H. destruct H as (bound & _ & H).
  apply bind_Ok in H. destruct H as ([params full] & _ & H).
  apply bind_Ok in H. destruct H as (_x & _ & H).
  apply bind_Ok in H. destruct H as ([comp_root st] & _ & H).
  apply bind_Ok in H. destruct H as (part_shape & Hshape & H).
  destruct (emit_parts_returns s lhs rhs dnums comp_root part_shape split_is_lhs
              (parameters st)) as (added & parts & E & _ & Hall).
  rewrite E in H. cbn [bind] in H. injection H as <-.
  exists part_shape, parts. split; [| split; [exact Hall | reflexivity]].
  destruct s as [ty dims]. exact Hshape.
Qed.

(** The loop that lowers the split dimension compares every contracting
    dimension with the value already lowered: with contracting dimensions 0
    and 2 before a split dimension 3 it subtracts one, not two. *)
Example lower_split_dim_two_contracting : lower_split_dim [0; 2] 3 = 2.
Proof. reflexivity. Qed.

(** C2: when the lhs is contracted along its first dimension and split
    along its second, every per-chunk dot gets the output shape with
    dimension 1 resized, the index of the split in the operand, while the
    split is dimension 0 of the output and the concatenation is along
    dimension 0. *)
Theorem HandleDot_part_shape_operand_index :
  exists g,
    HandleDot run_visitor chain_contract_first empty_graph = Returns g /\
    (concatenations g = [(f32 [20000; 10], 0, repeat (f32 [20000; 25]) 800)] /\
     output_split_dim inner_tensor contract_first true 1 = 0 /\
     set_dimensions (shape_of chain_contract_first) 0 25 = Ok (f32 [25; 10])).
Proof.
  apply Returns_with. vm_compute. repeat split; reflexivity.
Qed.

(** C3: in the dot case with the split dimension in the rhs, the index is
    adjusted with the contracting dimensions of the lhs.  For a matrix
    product split along output dimension 1 the adjusted index is 0, the
    contracted dimension of the rhs; with the contracting dimensions of the
    rhs it would be 1.  The slices and the parameter are built from 0. *)
Theorem BuildDot_rhs_index_from_lhs_contracting :
  exists st,
    BestSplitDim run_visitor inner_bc [0] = Ok 1 /\
    BestSplitSize run_visitor inner_bc 1 = Ok 25 /\
    BuildComputationAndParameters inner_bc 1 25 (empty_parameters 800) =
      Ok (Dot (f32 [4096; 25])
              (Param 1 (f32 [4096; 128]) "dot_join_tensor")
              (Param 0 (f32 [25; 20000]) "dot_split_tensor") matmul, st) /\
    parent_added st =
      map (fun k => Slice (f32 [25; 20000]) (Param 2 (f32 [128; 20000]) "c")
                          [25 * k; 0] [25 * k + 25; 20000] [1; 1])
          [0; 1; 2; 3; 4; 5] /\
    adjust_split_dim (lhs_contracting_dimensions matmul) (1 - 1) = 0 /\
    adjust_split_dim (rhs_contracting_dimensions matmul) (1 - 1) = 1.
Proof.
  eexists. split; [vm_compute; reflexivity |].
  split; [vm_compute; reflexivity |].
  split; [vm_compute; reflexivity |].
  repeat split; vm_compute; reflexivity.
Qed.

(** C6: through a transpose the root keeps the shape of the rebuilt
    operand.  The transpose of a 20000 x 4096 product, split along its
    dimension 1 into chunks of 25, has shape 4096 x 25 after the split; the
    root the builder returns has shape 25 x 4096. *)
Theorem Build_transpose_root_shape_not_permuted :
  exists root st,
    OperandCanBeSplit transposed_rows = true /\
    BestSplitDim run_visitor transposed_rows [0] = Ok 1 /\
    BestSplitSize run_visitor transposed_rows 1 = Ok 25 /\
    BuildComputationAndParameters transposed_rows 1 25 (empty_parameters 800)
      = Ok (root, st) /\
    shape_of root = f32 [25; 4096] /\
    set_dimensions (shape_of transposed_rows) 1 25 = Ok (f32 [4096; 25]).
Proof.
  eexists. eexists. split; [reflexivity |].
  split; [vm_compute; reflexivity |].
  split; [vm_compute; reflexivity |].
  split; [vm_compute; reflexivity |].
  split; vm_compute; reflexivity.
Qed.

(** C7: on [a . (b . c)] with a contracted dimension of 40000 inside, every
    node of the split operand is of a handled kind and the 800 chunks of 25
    tile the split dimension of 20000 exactly, yet the rewrite is aborted:
    the builder walks the contracted dimension of [c] and asks for an 801st
    operand list.  And line 289 lets a partition that overshoots the
    dimension pass: the check does not read the accumulated size. *)
Theorem HandleDot_aborts_outside_the_two_cases :
  HandleDot run_visitor chain_rhs_long empty_graph = Fatal OutOfRange /\
  OperandCanBeSplit inner_bc_long = true /\
  BestSplitDim run_visitor inner_bc_long [0] = Ok 1 /\
  BestSplitSize run_visitor inner_bc_long 1 = Ok 25 /\
  partition_loop (Z.to_nat 20000) 20000 25 0 [] = Ok (repeat [] 800, 20000) /\
  partition_loop (Z.to_nat 20000) 20000 30000 0 [] = Ok ([[]], 30000) /\
  CHECK_assign 20000 = Ok 20000.
Proof.
  repeat split; vm_compute; reflexivity.
Qed.

(** ** Bail-outs of [HandleDot] *)

Lemma HandleDot_not_eligible (this : IntermediateTensorSplitterVisitor)
    (s : Shape) (lhs rhs : HloInstruction) (dnums : DotDimensionNumbers)
    (g : Graph) :
  OperandShouldBeSplit this lhs && OperandCanBeSplit lhs = false ->
  OperandShouldBeSplit this rhs && OperandCanBeSplit rhs = false ->
  HandleDot this (Dot s lhs rhs dnums) g = FallsOffEnd g.
Proof.
  intros Hl Hr. unfold HandleDot. rewrite Hl, Hr. reflexivity.
Qed.

Lemma HandleDot_no_split_dim (this : IntermediateTensorSplitterVisitor)
    (s : Shape) (lhs rhs : HloInstruction) (dnums : DotDimensionNumbers)
    (g : Graph) :
  let can_split_lhs := OperandShouldBeSplit this lhs && OperandCanBeSplit lhs in
  let can_split_rhs := OperandShouldBeSplit this rhs && OperandCanBeSplit rhs in
  can_split_lhs || can_split_rhs = true ->
  BestSplitDim this (if can_split_lhs then lhs else rhs)
               (if can_split_lhs then lhs_contracting_dimensions dnums
                else rhs_contracting_dimensions dnums) = Ok (-1) ->
  HandleDot this (Dot s lhs rhs dnums) g = Returns g.
Proof.
  intros cl cr Hc Hbest. unfold HandleDot. fold cl cr. rewrite Hc.
  unfold HandleDot_split. rewrite Hbest. reflexivity.
Qed.

(** A bail-out: the only dimension that is not contracted is a prime above
    the ceiling, [BestSplitDim] returns [-1], and [HandleDot] returns with
    the graph as it was. *)
Example HandleDot_prime_bails_out :
  forall g, HandleDot run_visitor chain_prime g = Returns g.
Proof.
  intros g. apply HandleDot_no_split_dim; vm_compute; reflexivity.
Qed.

(** C8: on Example 1 of the specification neither operand is large, and
    [HandleDot] leaves the graph as it is but reaches the end of the
    function body, where no [return] statement gives the [Status]. *)
Theorem HandleDot_small_dot_falls_off_end :
  forall g, HandleDot run_visitor small_dot g = FallsOffEnd g.
Proof.
  intros g. apply HandleDot_not_eligible; vm_compute; reflexivity.
Qed.

(** * Further properties of the code *)

(** ** The chunk-size search *)

(** X1: a dimension whose tensor already meets the target is not divided:
    the search returns the dimension size itself, or [-1] when that is
    above the ceiling. *)
Theorem BestChunkSize_within_target
    (max_size target_size split_size rest_size : Z) :
  1 <= split_size ->
  split_size * rest_size <= target_size ->
  BestChunkSize max_size target_size split_size rest_size
  = Ok (if split_size <=? max_size then split_size else -1).
Proof.
  intros Hn Hmet. unfold BestChunkSize.
  destruct (factorize_spec primes primes_ge_2 split_size Hn)
    as (fs & t & -> & _).
  cbn [bind]. rewrite reduce_stopped by exact Hmet. reflexivity.
Qed.

Lemma BestChunkSize_within_target_witness :
  BestChunkSize 1000000 200000 1200 128 = Ok (if 1200 <=? 1000000 then 1200 else -1).
Proof.
  apply (BestChunkSize_within_target 1000000 200000 1200 128); lia.
Defined.

(** X2: the search stops dividing only when the target is met or when no
    table prime divides the chunk size any more. *)
Theorem BestChunkSize_target_or_exhausted
    (max_size target_size split_size rest_size : Z) :
  1 <= split_size ->
  exists v,
    BestChunkSize max_size target_size split_size rest_size = Ok v /\
    (v <> -1 ->
     v * rest_size <= target_size \/ Forall (fun p => ~ (p | v)) primes).
Proof.
  intros Hn.
  destruct (BestChunkSize_reached max_size target_size split_size rest_size Hn)
    as (r & t & -> & Hr & _ & _ & _ & _ & Hrough & Hstop).
  eexists. split; [reflexivity |].
  destruct (Z.leb_spec r max_size); [| intros Hne; contradiction Hne; reflexivity].
  intros _. destruct Hstop as [-> | Hmet]; [right; exact Hrough | left; exact Hmet].
Qed.

Lemma BestChunkSize_target_or_exhausted_witness :
  exists v,
    BestChunkSize 1000000 200000 20000 4096 = Ok v /\
    (v <> -1 ->
     v * 4096 <= 200000 \/ Forall (fun p => ~ (p | v)) primes).
Proof.
  apply (BestChunkSize_target_or_exhausted 1000000 200000 20000 4096). lia.
Defined.

Lemma shrink_needed (target rest_size p q : Z) :
  2 <= p -> 1 <= q ->
  forall k : nat,
    exists e,
      0 <= e <= Z.of_nat k /\
      shrink k target rest_size p (q * p ^ Z.of_nat k) = q * p ^ e /\
      (e = 0 \/ q * p ^ e * rest_size <= target) /\
      (e < Z.of_nat k -> q * p ^ (e + 1) * rest_size > target).
Proof.
  intros Hp Hq. induction k as [| k IH].
  - exists 0. simpl. repeat split; auto; lia.
  - cbn [shrink].
    destruct (Z.gtb_spec (q * p ^ Z.of_nat (S k) * rest_size) target) as [G | G].
    + rewrite Nat2Z.inj_succ, Z.pow_succ_r in * by lia.
      replace (q * (p * p ^ Z.of_nat k)) with (q * p ^ Z.of_nat k * p) in * by ring.
      rewrite Z.quot_mul by lia.
      destruct IH as (e & He & -> & Hstop & Hneed).
      exists e. repeat split; auto; try lia.
      intros Hlt. destruct (Z.eq_dec e (Z.of_nat k)) as [-> | Hne].
      * rewrite Z.pow_add_r, Z.pow_1_r by lia.
        replace (q * (p ^ Z.of_nat k * p)) with (q * p ^ Z.of_nat k * p) by ring.
        lia.
      * apply Hneed. lia.
    + exists (Z.of_nat (S k)). repeat split; auto; lia.
Qed.

Lemma reduce_needed (target rest_size : Z) (ps : list Z) :
  Forall (fun p => 2 <= p) ps ->
  forall factors, Forall (fun f => 0 <= f) factors ->
  forall q, 1 <= q ->
    let s := q * prime_powers ps factors in
    let r := reduce ps factors target rest_size s in
    1 <= r /\ (r | s) /\
    (r = s \/
     exists p, In p ps /\ (r * p | s) /\ r * p * rest_size > target).
Proof.
  induction 1 as [| p ps Hp Hps IH]; intros fs Hfs q Hq.
  - simpl. repeat split; auto; try lia. apply Z.divide_refl.
  - destruct Hfs as [| f fs Hf Hfs].
    + simpl. repeat split; auto; try lia. apply Z.divide_refl.
    + cbn [reduce prime_powers].
      pose proof (prime_powers_pos ps fs Hps Hfs) as Hpp.
      remember (prime_powers ps fs) as PP eqn:EPP.
      assert (Es : q * (p ^ f * PP) = q * PP * p ^ Z.of_nat (Z.to_nat f))
        by (rewrite Z2Nat.id by lia; ring).
      rewrite Es.
      destruct (shrink_needed target rest_size p (q * PP) Hp ltac:(nia) (Z.to_nat f))
        as (e & He & -> & Hstop & Hneed).
      rewrite Z2Nat.id in * by lia.
      assert (Hpe : 0 < p ^ e) by (apply Z.pow_pos_nonneg; lia).
      assert (Hdiv1 : (q * PP * p ^ e | q * PP * p ^ f)).
      { exists (p ^ (f - e)).
        replace (p ^ f) with (p ^ (f - e) * p ^ e)
          by (rewrite <- Z.pow_add_r by lia; f_equal; lia).
        ring. }
      assert (Hfirst :
        q * PP * p ^ e = q * PP * p ^ f \/
        exists p', In p' (p :: ps) /\
                   (q * PP * p ^ e * p' | q * PP * p ^ f) /\
                   q * PP * p ^ e * p' * rest_size > target).
      { destruct (Z.eq_dec e f) as [-> | Hne]; [left; reflexivity | right].
        exists p. split; [left; reflexivity |]. split.
        - exists (p ^ (f - (e + 1))).
          replace (p ^ f) with (p ^ (f - (e + 1)) * p ^ (e + 1))
            by (rewrite <- Z.pow_add_r by lia; f_equal; lia).
          rewrite Z.pow_add_r, Z.pow_1_r by lia. ring.
        - specialize (Hneed ltac:(lia)).
          rewrite Z.pow_add_r, Z.pow_1_r in Hneed by lia.
          replace (q * PP * p ^ e * p) with (q * PP * (p ^ e * p)) by ring.
          exact Hneed. }
      destruct (Z.eq_dec e 0) as [-> | Hne].
      * rewrite Z.pow_0_r, Z.mul_1_r in *. subst PP.
        destruct (IH fs Hfs q Hq) as (Hr & Hdiv & Hlast).
        split; [exact Hr |]. split.
        -- eapply Z.divide_trans; [exact Hdiv | exact Hdiv1].
        -- destruct Hlast as [-> | (p' & Hin & Hd & Hgt)]; [exact Hfirst |].
           right. exists p'. split; [right; exact Hin |]. split; [| exact Hgt].
           eapply Z.divide_trans; [exact Hd | exact Hdiv1].
      * destruct Hstop as [-> | Hstop]; [lia |].
        rewrite reduce_stopped by exact Hstop.
        split; [nia |]. split; [exact Hdiv1 | exact Hfirst].
Qed.

(** X3: no division is wasted: when the search returns a chunk size smaller
    than the dimension size, the chunk size one division earlier, a
    multiple of the result by a table prime that still divides the
    dimension size, was above the target. *)
Theorem BestChunkSize_divisions_needed
    (max_size target_size split_size rest_size : Z) :
  1 <= split_size ->
  exists v,
    BestChunkSize max_size target_size split_size rest_size = Ok v /\
    (v <> -1 ->
     v = split_size \/
     exists p, In p primes /\ (v * p | split_size) /\
               v * p * rest_size > target_size).
Proof.
  intros Hn. unfold BestChunkSize.
  destruct (factorize_spec primes primes_ge_2 split_size Hn)
    as (fs & t & -> & _ & Hfs & Ht & Heq & _).
  cbn [bind].
  pose proof (reduce_needed target_size rest_size primes primes_ge_2 fs Hfs t Ht)
    as (Hr & _ & Hlast).
  rewrite <- Heq in Hr, Hlast.
  eexists. split; [reflexivity |].
  destruct (Z.leb_spec (reduce primes fs target_size rest_size split_size) max_size);
    [intros _; exact Hlast | intros Hne; contradiction Hne; reflexivity].
Qed.

Lemma BestChunkSize_divisions_needed_witness :
  exists v,
    BestChunkSize 1000000 200000 20000 128 = Ok v /\
    (v <> -1 ->
     v = 20000 \/
     exists p, In p primes /\ (v * p | 20000) /\ v * p * 128 > 200000).
Proof.
  apply (BestChunkSize_divisions_needed 1000000 200000 20000 128). lia.
Defined.

(** ** [BestSplitSize] on a shape *)

Lemma at_out_of_range {A : Type} (v : list A) (i : Z) :
  ~ 0 <= i < Z.of_nat (length v) -> at_ v i = Abort OutOfRange.
Proof.
  intros H. unfold at_.
  destruct (Z.ltb_spec i 0); destruct (Z.leb_spec (Z.of_nat (length v)) i);
    simpl; try reflexivity.
  lia.
Qed.

(** X4: how [BestSplitSize] ends.  An index outside the shape is an
    out-of-range access; a dimension of size zero is a division by zero;
    on a dimension of size at least one the function returns [-1] or a
    positive divisor of the size that is within the ceiling. *)
Theorem BestSplitSize_outcomes
    (this : IntermediateTensorSplitterVisitor) (inst : HloInstruction) (i : Z) :
  (~ 0 <= i < rank (shape_of inst) ->
   BestSplitSize this inst i = Abort OutOfRange) /\
  (dimensions_at (shape_of inst) i = Ok 0 ->
   BestSplitSize this inst i = Abort Undefined) /\
  (forall d,
     dimensions_at (shape_of inst) i = Ok d -> 1 <= d ->
     exists v,
       BestSplitSize this inst i = Ok v /\
       (v = -1 \/
        (1 <= v <= d /\ (v | d) /\ v <= max_intermediate_size this))).
Proof.
  split; [| split].
  - intros H. unfold BestSplitSize, dimensions_at.
    rewrite at_out_of_range by exact H. reflexivity.
  - intros H. unfold BestSplitSize. rewrite H. reflexivity.
  - intros d Hd Hpos.
    destruct (BestSplitSize_total this inst i d Hd Hpos) as (v & Hv & Hspec).
    exists v. split; [exact Hv |].
    destruct Hspec as [-> | (Hv1 & Hdiv & Hmax)]; [left; reflexivity | right].
    repeat split; auto. apply Z.divide_pos_le in Hdiv; lia.
Qed.

Lemma list_set_product (l : list Z) :
  forall (i : nat) (d : Z),
    nth_error l i = Some d ->
    exists rest,
      fold_right Z.mul 1 l = d * rest /\
      forall v, fold_right Z.mul 1 (list_set l i v) = v * rest.
Proof.
  induction l as [| h t IH]; intros [| i] d H; simpl in H; try discriminate.
  - injection H as ->. exists (fold_right Z.mul 1 t). simpl. auto.
  - destruct (IH i d H) as (rest & Hall & Hset).
    exists (h * rest). simpl. split; [rewrite Hall; ring |].
    intros v. rewrite Hset. ring.
Qed.

Lemma list_set_length {A : Type} (l : list A) :
  forall (i : nat) (x : A), length (list_set l i x) = length l.
Proof.
  induction l as [| h t IH]; intros [| i] x; simpl; auto.
Qed.

(** X5: the chunk size [BestSplitSize] returns cuts the tensor into whole
    chunks.  Resizing the chosen dimension to the chunk size gives a shape
    of the same rank whose element count, times the number of chunks, is
    the element count of the tensor; and that count is within the target
    unless no table prime divides the chunk size any more. *)
Theorem BestSplitSize_chunk_elements
    (this : IntermediateTensorSplitterVisitor) (inst : HloInstruction)
    (i d : Z) :
  dimensions_at (shape_of inst) i = Ok d -> 1 <= d ->
  exists v,
    BestSplitSize this inst i = Ok v /\
    (v <> -1 ->
     exists chunk_shape,
       set_dimensions (shape_of inst) i v = Ok chunk_shape /\
       rank chunk_shape = rank (shape_of inst) /\
       ElementsIn chunk_shape * (d / v) = ElementsIn (shape_of inst) /\
       (ElementsIn chunk_shape <= target_intermediate_size this \/
        Forall (fun p => ~ (p | v)) primes)).
Proof.
  intros Hd Hpos. unfold BestSplitSize. rewrite Hd. cbn [bind].
  destruct (Z.eqb_spec d 0); [lia |].
  apply at_Ok in Hd. destruct Hd as [Hi Hnth].
  destruct (list_set_product _ _ _ Hnth) as (rest & Hall & Hset).
  unfold ElementsIn at 1. rewrite Hall.
  replace (d * rest) with (rest * d) by ring. rewrite Z.quot_mul by lia.
  destruct (BestChunkSize_reached (max_intermediate_size this)
              (target_intermediate_size this) d rest Hpos)
    as (r & t & -> & Hr & (k & Hk) & _ & _ & _ & Hrough & Hstop).
  eexists. split; [reflexivity |].
  destruct (Z.leb_spec r (max_intermediate_size this));
    [| intros Hne; contradiction Hne; reflexivity].
  intros _. unfold set_dimensions, set_at.
  destruct (Z.ltb_spec i 0); [lia |].
  destruct (Z.leb_spec (Z.of_nat (length (dimensions (shape_of inst)))) i);
    [lia |].
  cbn [orb bind]. eexists. split; [reflexivity |].
  unfold rank, ElementsIn. cbn [dimensions].
  rewrite list_set_length, Hset, Hall. split; [reflexivity |]. split.
  - subst d. rewrite Z.div_mul by lia. ring.
  - destruct Hstop as [-> | Hmet]; [right; exact Hrough | left; exact Hmet].
Qed.

Lemma BestSplitSize_chunk_elements_witness :
  exists v,
    BestSplitSize run_visitor inner_rows 0 = Ok v /\
    (v <> -1 ->
     exists chunk_shape,
       set_dimensions (shape_of inner_rows) 0 v = Ok chunk_shape /\
       rank chunk_shape = rank (shape_of inner_rows) /\
       ElementsIn chunk_shape * (20000 / v) = ElementsIn (shape_of inner_rows) /\
       (ElementsIn chunk_shape <= target_intermediate_size run_visitor \/
        Forall (fun p => ~ (p | v)) primes)).
Proof.
  apply (BestSplitSize_chunk_elements run_visitor inner_rows 0 20000);
    [reflexivity | lia].
Defined.

(** ** [BestSplitDim] on any shape *)

(** X6: whatever the dimension sizes, [BestSplitDim] returns [-1] or the
    index of a dimension of the shape that is not excluded and has size at
    least one, so the division in [BestSplitSize] is never by zero; it
    returns [-1] when every dimension is excluded. *)
Theorem BestSplitDim_never_excluded
    (this : IntermediateTensorSplitterVisitor) (inst : HloInstruction)
    (excluded : list Z) :
  exists best,
    BestSplitDim this inst excluded = Ok best /\
    (best = -1 \/
     (0 <= best < rank (shape_of inst) /\ ~ In best excluded /\
      exists d, dimensions_at (shape_of inst) best = Ok d /\ 1 <= d)) /\
    ((forall j, 0 <= j < rank (shape_of inst) -> In j excluded) -> best = -1).
Proof.
  destruct (BestSplitDim_returns this inst excluded)
    as (bd & bs & Hret & _ & Hbest & _).
  exists bd. split; [exact Hret |].
  destruct Hbest as [[-> _] | (Hr & Hnex & _ & Hsize & Hpos)].
  - split; [left; reflexivity | reflexivity].
  - split.
    + right. repeat split; auto; try lia. exists bs. split; [exact Hsize | lia].
    + intros Hall. exfalso. apply Hnex. apply Hall. exact Hr.
Qed.

(** ** The builder *)

Lemma Build_rejected (inst : HloInstruction) :
  OperandCanBeSplit inst = false ->
  forall split_dim split_size st,
    exists f,
      BuildComputationAndParameters inst split_dim split_size st = Abort f /\
      (f = CheckFailed \/ f = Undefined).
Proof.
  revert inst. fix IH 1. intros inst Hcan split_dim split_size st.
  destruct inst; try (exists CheckFailed; split; [reflexivity | left; reflexivity]).
  - (* Elementwise *)
    simpl in Hcan |- *.
    destruct has_side_effect;
      [exists CheckFailed; split; [reflexivity | left; reflexivity] |].
    destruct operands as [| operand [| ? ?]];
      try (exists CheckFailed; split; [reflexivity | left; reflexivity]).
    destruct (IH operand Hcan split_dim split_size st) as (f & -> & Hf).
    exists f. split; [reflexivity | exact Hf].
  - (* Transpose *)
    simpl in Hcan |- *. unfold permutation_at.
    destruct (at_ permutation split_dim) as [d | f0]; cbn [bind].
    + destruct (IH inst Hcan d split_size st) as (f & -> & Hf).
      exists f. split; [reflexivity | exact Hf].
    + exists Undefined. split; [reflexivity | right; reflexivity].
  - (* Dot *)
    discriminate Hcan.
Qed.

(** X7: the builder follows the analyzer.  On a node [OperandCanBeSplit]
    accepts, the builder never reaches its invariant-violation branch; on
    a node it rejects, the builder never returns a root: it aborts, on the
    invariant violation or earlier on a split dimension outside a
    transpose's permutation. *)
Theorem Build_follows_OperandCanBeSplit (inst : HloInstruction)
    (split_dim split_size : Z) (st : BuildState) :
  (OperandCanBeSplit inst = true ->
   BuildComputationAndParameters inst split_dim split_size st
   <> Abort CheckFailed) /\
  (OperandCanBeSplit inst = false ->
   exists f,
     BuildComputationAndParameters inst split_dim split_size st = Abort f /\
     (f = CheckFailed \/ f = Undefined)).
Proof.
  split.
  - intros Hcan H. exact (Build_Abort inst Hcan _ _ _ _ H eq_refl).
  - intros Hcan. apply Build_rejected. exact Hcan.
Qed.

Lemma set_dimensions_Ok (s s' : Shape) (i v : Z) :
  set_dimensions s i v = Ok s' ->
  0 <= i < rank s /\
  element_type s' = element_type s /\
  rank s' = rank s /\
  dimensions_at s' i = Ok v.
Proof.
  unfold set_dimensions, set_at, rank, dimensions_at.
  destruct (Z.ltb_spec i 0); [discriminate |].
  destruct (Z.leb_spec (Z.of_nat (length (dimensions s))) i); [discriminate |].
  cbn [orb bind]. intros [= <-]. cbn [dimensions element_type].
  rewrite list_set_length. repeat split; auto; try lia.
  apply at_Ok. rewrite list_set_length. split; [lia |].
  assert (Hn : (Z.to_nat i < length (dimensions s))%nat) by lia.
  revert Hn. generalize (Z.to_nat i). generalize (dimensions s).
  induction l as [| h t IH]; intros [| n] Hn; simpl in *; try lia; auto.
  apply IH. lia.
Qed.

(** X8: the root the builder returns has the shape of the innermost dot of
    the chain, with the same rank and element type, resized to the chunk
    size at the split dimension mapped through the permutations of the
    transposes on the way down.  The transposes do not permute it back. *)
Theorem Build_root_has_innermost_dot_shape (inst : HloInstruction)
    (split_dim split_size : Z) (st st' : BuildState) (root : HloInstruction) :
  BuildComputationAndParameters inst split_dim split_size st = Ok (root, st') ->
  exists s d,
    split_location inst split_dim = Ok (s, d) /\
    set_dimensions s d split_size = Ok (shape_of root) /\
    rank (shape_of root) = rank s /\
    element_type (shape_of root) = element_type s /\
    dimensions_at (shape_of root) d = Ok split_size.
Proof.
  intros H. destruct (Build_root_shape inst _ _ _ _ _ H) as (s & d & Hloc & Hset).
  exists s, d. split; [exact Hloc |]. split; [exact Hset |].
  apply set_dimensions_Ok in Hset. destruct Hset as (_ & Hty & Hrank & Hat).
  auto.
Qed.

Lemma Build_root_has_innermost_dot_shape_witness :
  exists s d,
    split_location tiny_transposed 1 = Ok (s, d) /\
    set_dimensions s d 1 = Ok (shape_of (fst (tiny_built tiny_transposed 1))) /\
    rank (shape_of (fst (tiny_built tiny_transposed 1))) = rank s /\
    element_type (shape_of (fst (tiny_built tiny_transposed 1)))
      = element_type s /\
    dimensions_at (shape_of (fst (tiny_built tiny_transposed 1))) d = Ok 1.
Proof.
  apply (Build_root_has_innermost_dot_shape tiny_transposed 1 1
           (empty_parameters 4) (snd (tiny_built tiny_transposed 1))).
  reflexivity.
Defined.

Lemma split_location_unary_over_dot (inst : HloInstruction) :
  unary_over_dot inst ->
  forall split_dim, split_location inst split_dim = Ok (shape_of inst, split_dim).
Proof.
  revert inst. fix IH 1. intros inst Hchain split_dim.
  destruct inst; try contradiction.
  - simpl in Hchain |- *. destruct has_side_effect; [contradiction |].
    destruct operands as [| operand [| ? ?]]; try contradiction.
    destruct Hchain as [-> Hchain]. apply (IH operand Hchain).
  - reflexivity.
Qed.

(** X9: through a chain of unary elementwise operations over a dot, each
    with the shape of its operand, the root the builder returns has the
    shape of the node it was given with only the split dimension resized
    to the chunk size. *)
Theorem Build_root_shape_unary_chain (inst : HloInstruction)
    (split_dim split_size : Z) (st st' : BuildState) (root : HloInstruction) :
  unary_over_dot inst ->
  BuildComputationAndParameters inst split_dim split_size st = Ok (root, st') ->
  set_dimensions (shape_of inst) split_dim split_size = Ok (shape_of root).
Proof.
  intros Hchain H.
  destruct (Build_root_shape inst _ _ _ _ _ H) as (s & d & Hloc & Hset).
  rewrite (split_location_unary_over_dot inst Hchain) in Hloc.
  injection Hloc as <- <-. exact Hset.
Qed.

Lemma Build_root_shape_unary_chain_witness :
  set_dimensions (shape_of tiny_negated) 0 1
  = Ok (shape_of (fst (tiny_built tiny_negated 0))).
Proof.
  apply (Build_root_shape_unary_chain tiny_negated 0 1
           (empty_parameters 4) (snd (tiny_built tiny_negated 0))).
  - simpl. auto.
  - reflexivity.
Defined.

Lemma slice_loop_frame (params : list (list HloInstruction)) :
  forall split_op join_op split_shape split_dim split_size start limit stride
         dims_done bound idx slices params' idx',
    slice_loop params split_op join_op split_shape split_dim split_size
               start limit stride dims_done bound idx
    = Ok (slices, params', idx') ->
    Forall (fun i => exists st li, i = Slice split_shape split_op st li stride)
           slices /\
    Forall2 (fun old new => exists ext, new = old ++ ext) params params'.
Proof.
  induction params as [| p params IH]; intros until idx'; simpl.
  - destruct (dims_done <? bound); [discriminate |].
    intros [= <- <- _]. split; constructor.
  - destruct (dims_done <? bound).
    + intros H. apply bind_Ok in H. destruct H as ([[sl ps] ix] & Hrec & H).
      injection H as <- <- _. apply IH in Hrec. destruct Hrec as [Hs Hp].
      split.
      * constructor; [eexists; eexists; reflexivity | exact Hs].
      * constructor; [eexists; reflexivity | exact Hp].
    + intros [= <- <- _]. split; [constructor |].
      constructor; [exists []; rewrite app_nil_r; reflexivity |].
      clear. induction params as [| q params IH]; constructor; auto.
      exists []. rewrite app_nil_r. reflexivity.
Qed.

Lemma Forall2_extends_trans (l1 l2 l3 : list (list HloInstruction)) :
  Forall2 (fun old new => exists ext, new = old ++ ext) l1 l2 ->
  Forall2 (fun old new => exists ext, new = old ++ ext) l2 l3 ->
  Forall2 (fun old new => exists ext, new = old ++ ext) l1 l3.
Proof.
  intros H. revert l3. induction H as [| a b l1 l2 (e1 & ->) H IH]; intros l3 H3.
  - inversion H3. constructor.
  - inversion H3 as [| ? c ? l3' (e2 & ->) H3']; subst.
    constructor; [| apply IH; exact H3'].
    exists (e1 ++ e2). rewrite app_assoc. reflexivity.
Qed.

Lemma BuildDot_frame (s : Shape) (lhs rhs : HloInstruction)
    (dnums : DotDimensionNumbers) (split_dim split_size : Z)
    (st st' : BuildState) (root : HloInstruction) :
  BuildDot (Dot s lhs rhs dnums) s lhs rhs dnums split_dim split_size st
    = Ok (root, st') ->
  (exists slices,
      parent_added st' = parent_added st ++ slices /\
      Forall (fun i => exists sh op a b c, i = Slice sh op a b c) slices) /\
  (exists added,
      builder_instructions st' = builder_instructions st ++ added ++ [root]) /\
  Forall2 (fun old new => exists ext, new = old ++ ext)
          (parameters st) (parameters st').
Proof.
  unfold BuildDot. intros H.
  apply bind_Ok in H. destruct H as (dot_shape & _ & H).
  destruct (split_dim <? rank (shape_of lhs) -
                          Z.of_nat (length (lhs_contracting_dimensions dnums)));
    (apply bind_Ok in H; destruct H as (split_shape & _ & H);
     apply bind_Ok in H; destruct H as (bound & _ & H);
     apply bind_Ok in H; destruct H as ([[sl ps] [[i1 i2] |]] & Hloop & H);
     [| discriminate];
     cbn [CloneWithNewOperands bind] in H; injection H as <- <-;
     apply slice_loop_frame in Hloop; destruct Hloop as [Hs Hp];
     cbn [parent_added builder_instructions parameters];
     split; [exists sl; split; [reflexivity |];
             eapply Forall_impl; [| exact Hs];
             intros i (a & b & ->); repeat eexists |];
     split; [eexists [_; _]; reflexivity | exact Hp]).
Qed.

Lemma Build_frame (inst : HloInstruction) :
  forall split_dim split_size st root st',
    BuildComputationAndParameters inst split_dim split_size st = Ok (root, st') ->
    (exists slices,
        parent_added st' = parent_added st ++ slices /\
        Forall (fun i => exists sh op a b c, i = Slice sh op a b c) slices) /\
    (exists added,
        builder_instructions st' = builder_instructions st ++ added ++ [root]) /\
    Forall2 (fun old new => exists ext, new = old ++ ext)
            (parameters st) (parameters st').
Proof.
  revert inst. fix IH 1. intros inst split_dim split_size st root st' H.
  assert (Hclone : forall i new_operand st1,
    (exists slices,
        parent_added st1 = parent_added st ++ slices /\
        Forall (fun i => exists sh op a b c, i = Slice sh op a b c) slices) /\
    (exists added,
        builder_instructions st1
        = builder_instructions st ++ added ++ [new_operand]) /\
    Forall2 (fun old new => exists ext, new = old ++ ext)
            (parameters st) (parameters st1) ->
    clone_over i new_operand st1 = Ok (root, st') ->
    (exists slices,
        parent_added st' = parent_added st ++ slices /\
        Forall (fun i => exists sh op a b c, i = Slice sh op a b c) slices) /\
    (exists added,
        builder_instructions st' = builder_instructions st ++ added ++ [root]) /\
    Forall2 (fun old new => exists ext, new = old ++ ext)
            (parameters st) (parameters st')).
  { intros i new_operand st1 (Hs & (added & Hb) & Hp) Hc.
    unfold clone_over in Hc. apply bind_Ok in Hc.
    destruct Hc as (r & _ & Hc). injection Hc as <- <-.
    cbn [parent_added builder_instructions parameters].
    split; [exact Hs |]. split; [| exact Hp].
    exists (added ++ [new_operand]). rewrite Hb, <- !app_assoc. reflexivity. }
  destruct inst; try discriminate H.
  - simpl in H. destruct has_side_effect; [discriminate |].
    destruct operands as [| operand [| ? ?]]; try discriminate.
    apply bind_Ok in H. destruct H as ([new_operand st1] & Hrec & H).
    eapply Hclone; [| exact H]. exact (IH operand _ _ _ _ _ Hrec).
  - simpl in H. apply bind_Ok in H. destruct H as (d & _ & H).
    apply bind_Ok in H. destruct H as ([new_operand st1] & Hrec & H).
    eapply Hclone; [| exact H]. exact (IH inst _ _ _ _ _ Hrec).
  - simpl in H. eapply BuildDot_frame. exact H.
Qed.

(** X10: the builder only adds.  What it adds to the computation of the
    split operand are slices; what the builder held is kept and the root it
    returns is the last instruction it registers; the vector of operand
    lists keeps its length and every list keeps what it had, extended at
    its end. *)
Theorem Build_only_adds (inst : HloInstruction)
    (split_dim split_size : Z) (st st' : BuildState) (root : HloInstruction) :
  BuildComputationAndParameters inst split_dim split_size st = Ok (root, st') ->
  (exists slices,
      parent_added st' = parent_added st ++ slices /\
      Forall (fun i => exists sh op a b c, i = Slice sh op a b c) slices) /\
  (exists added,
      builder_instructions st' = builder_instructions st ++ added ++ [root]) /\
  length (parameters st') = length (parameters st) /\
  Forall2 (fun old new => exists ext, new = old ++ ext)
          (parameters st) (parameters st').
Proof.
  intros H. destruct (Build_frame inst _ _ _ _ _ H) as (Hs & Hb & Hp).
  split; [exact Hs |]. split; [exact Hb |]. split; [| exact Hp].
  symmetry. eapply Forall2_length. exact Hp.
Qed.

Lemma Build_only_adds_witness :
  (exists slices,
      parent_added (snd (tiny_built tiny_transposed 1))
      = parent_added (empty_parameters 4) ++ slices /\
      Forall (fun i => exists sh op a b c, i = Slice sh op a b c) slices) /\
  (exists added,
      builder_instructions (snd (tiny_built tiny_transposed 1))
      = builder_instructions (empty_parameters 4) ++ added
        ++ [fst (tiny_built tiny_transposed 1)]) /\
  length (parameters (snd (tiny_built tiny_transposed 1)))
  = length (parameters (empty_parameters 4)) /\
  Forall2 (fun old new => exists ext, new = old ++ ext)
          (parameters (empty_parameters 4))
          (parameters (snd (tiny_built tiny_transposed 1))).
Proof.
  apply (Build_only_adds tiny_transposed 1 1 (empty_parameters 4)).
  reflexivity.
Defined.

(** ** The slices of the split operand (lines 195-209) *)

Lemma list_set_twice {A : Type} (l : list A) :
  forall (i : nat) (x y : A), list_set (list_set l i x) i y = list_set l i y.
Proof.
  induction l as [| h t IH]; intros [| i] x y; simpl; auto.
  rewrite IH. reflexivity.
Qed.



(** X12: when the operand lists run out before the extent is covered, the
    loop ends in an out-of-range access to [parameters]. *)
Theorem slice_loop_too_few_lists (params : list (list HloInstruction)) :
  forall split_op join_op split_shape split_dim split_size start limit stride
         dims_done bound idx,
    0 <= split_size ->
    dims_done + Z.of_nat (length params) * split_size < bound ->
    slice_loop params split_op join_op split_shape split_dim split_size
               start limit stride dims_done bound idx
    = Abort OutOfRange.
Proof.
  induction params as [| p params IH]; intros until idx; intros Hsize Hshort.
  - simpl in *. destruct (Z.ltb_spec dims_done bound); [reflexivity | lia].
  - cbn [slice_loop]. cbn [length] in Hshort.
    destruct (Z.ltb_spec dims_done bound); [| nia].
    rewrite IH; [reflexivity | exact Hsize | lia].
Qed.

Lemma slice_loop_too_few_lists_witness :
  slice_loop (repeat [] 3) (Param 1 (f32 [4; 2]) "b")
             (Param 2 (f32 [2; 3]) "c") (f32 [1; 2]) 0 1
             [0; 0] [4; 2] [1; 1] 0 4 None
  = Abort OutOfRange.
Proof.
  apply (slice_loop_too_few_lists (repeat [] 3)); simpl; lia.
Defined.

(** ** The rewrite of one dot *)






(** X14: the partition of lines 285-288 with the chunk size
    [BestSplitSize] returns makes as many operand lists as the quotient of
    the dimension size by the chunk size, reaches the dimension size
    exactly, and the check of line 289 passes. *)
Theorem partition_reaches_dimension
    (this : IntermediateTensorSplitterVisitor) (inst : HloInstruction)
    (split_dim d v : Z) :
  dimensions_at (shape_of inst) split_dim = Ok d -> 1 <= d ->
  BestSplitSize this inst split_dim = Ok v -> v <> -1 ->
  partition_loop (Z.to_nat d) d v 0 [] = Ok (repeat [] (Z.to_nat (d / v)), d) /\
  CHECK_assign d = Ok d.
Proof.
  intros Hd Hpos Hv Hne. split.
  - exact (partition_loop_of_BestSplitSize this inst split_dim d v Hd Hpos Hv Hne).
  - unfold CHECK_assign. destruct (Z.eqb_spec d 0); [lia | reflexivity].
Qed.

Lemma partition_reaches_dimension_witness :
  partition_loop (Z.to_nat 20000) 20000 25 0 []
  = Ok (repeat [] (Z.to_nat (20000 / 25)), 20000) /\
  CHECK_assign 20000 = Ok 20000.
Proof.
  apply (partition_reaches_dimension run_visitor inner_rows 0 20000 25);
    [reflexivity | lia | vm_compute; reflexivity | discriminate].
Defined.





(** X16: the parameter numbers match the operand positions.  When every
    operand list has the same length [m] on entry and the loop cuts at
    least one slice, the loop leaves [m] as the index of the split
    parameter and [m + 1] as the index of the join parameter, and every
    list it extends holds its slice at position [m] and the join operand at
    position [m + 1]. *)
Theorem slice_loop_parameter_indices (m : nat)
    (params : list (list HloInstruction)) :
  forall split_op join_op split_shape split_dim split_size start limit stride
         dims_done bound idx slices params' idx',
    Forall (fun p => length p = m) params ->
    slice_loop params split_op join_op split_shape split_dim split_size
               start limit stride dims_done bound idx
    = Ok (slices, params', idx') ->
    slices <> [] ->
    idx' = Some (Z.of_nat m, Z.of_nat m + 1) /\
    Forall (fun p => length p = m \/
                     exists slice,
                       In slice slices /\
                       nth_error p m = Some slice /\
                       nth_error p (S m) = Some join_op /\
                       length p = S (S m)) params'.
Proof.
  induction params as [| p params IH]; intros until idx'; intros Hm; simpl.
  - destruct (dims_done <? bound); [discriminate |].
    intros [= <- _ _] Hne. contradiction.
  - inversion Hm as [| ? ? Hp Hm']; subst.
    destruct (dims_done <? bound).
    + intros H _. apply bind_Ok in H. destruct H as ([[sl ps] ix] & Hrec & H).
      injection H as <- <- <-.
      assert (Hhead :
        exists slice,
          In slice (Slice split_shape split_op
                      (list_set start (Z.to_nat split_dim) dims_done)
                      (list_set limit (Z.to_nat split_dim)
                                (dims_done + split_size)) stride :: sl) /\
          nth_error
            (p ++ [Slice split_shape split_op
                     (list_set start (Z.to_nat split_dim) dims_done)
                     (list_set limit (Z.to_nat split_dim)
                               (dims_done + split_size)) stride; join_op])
            (length p) = Some slice /\
          nth_error
            (p ++ [Slice split_shape split_op
                     (list_set start (Z.to_nat split_dim) dims_done)
                     (list_set limit (Z.to_nat split_dim)
                               (dims_done + split_size)) stride; join_op])
            (S (length p)) = Some join_op /\
          length
            (p ++ [Slice split_shape split_op
                     (list_set start (Z.to_nat split_dim) dims_done)
                     (list_set limit (Z.to_nat split_dim)
                               (dims_done + split_size)) stride; join_op])
          = S (S (length p))).
      { eexists. split; [left; reflexivity |].
        rewrite !nth_error_app2 by lia.
        replace (length p - length p)%nat with 0%nat by lia.
        replace (S (length p) - length p)%nat with 1%nat by lia.
        rewrite length_app. simpl. repeat split; auto. lia. }
      destruct sl as [| s0 sl].
      * (* the last slice *)
        destruct params as [| q params].
        -- simpl in Hrec. destruct (dims_done + split_size <? bound);
             [discriminate |].
           injection Hrec as <- <-. split.
           ++ rewrite length_app. simpl. f_equal. f_equal. lia.
           ++ constructor; [right; exact Hhead | constructor].
        -- simpl in Hrec. destruct (dims_done + split_size <? bound).
           ++ apply bind_Ok in Hrec.
              destruct Hrec as ([[sl2 ps2] ix2] & _ & Hrec). discriminate.
           ++ injection Hrec as <- <-. split.
              ** rewrite length_app. simpl. f_equal. f_equal. lia.
              ** constructor; [right; exact Hhead |].
                 eapply Forall_impl; [| exact Hm']. intros a Ha. left. exact Ha.
      * destruct (IH _ _ _ _ _ _ _ _ _ _ _ _ _ _ Hm' Hrec ltac:(discriminate))
          as (Hix & Hall).
        split; [exact Hix |].
        constructor.
        -- right. destruct Hhead as (sl0 & Hin & H1 & H2 & H3).
           exists sl0. repeat split; auto.
        -- eapply Forall_impl; [| exact Hall].
           intros a [Ha | (sl1 & Hin & H1 & H2 & H3)]; [left; exact Ha | right].
           exists sl1. repeat split; auto. right. exact Hin.
    + intros [= <- _ _] Hne. contradiction.
Qed.

Lemma slice_loop_parameter_indices_witness :
  Some (0, 1) = Some (Z.of_nat 0, Z.of_nat 0 + 1) /\
  Forall (fun p => length p = 0%nat \/
                   exists slice,
                     In slice (parent_added (snd (tiny_built tiny_inner 0))) /\
                     nth_error p 0 = Some slice /\
                     nth_error p 1 = Some (Param 2 (f32 [2; 3]) "c") /\
                     length p = 2%nat)
         (parameters (snd (tiny_built tiny_inner 0))).
Proof.
  apply (slice_loop_parameter_indices 0 (repeat [] 4)
           (Param 1 (f32 [4; 2]) "b") (Param 2 (f32 [2; 3]) "c")
           (f32 [1; 2]) 0 1 [0; 0] [4; 2] [1; 1] 0 4 None).
  - repeat constructor.
  - reflexivity.
  - discriminate.
Defined.

(** ** Moving the split dimension between operand and output *)

Lemma adjust_split_dim_above (contracting : list Z) (split_dim : Z) :
  Forall (fun c => split_dim < c) contracting ->
  adjust_split_dim contracting split_dim = split_dim.
Proof.
  unfold adjust_split_dim. induction 1 as [| c t Hc Ht IH]; simpl; auto.
  destruct (Z.geb_spec split_dim c); [lia | exact IH].
Qed.

Lemma filter_none {A : Type} (f : A -> bool) (l : list A) :
  Forall (fun x => f x = false) l -> filter f l = [].
Proof.
  induction 1 as [| x t Hx Ht IH]; simpl; auto. rewrite Hx. exact IH.
Qed.

Lemma filter_all {A : Type} (f : A -> bool) (l : list A) :
  Forall (fun x => f x = true) l -> filter f l = l.
Proof.
  induction 1 as [| x t Hx Ht IH]; simpl; auto. rewrite Hx, IH. reflexivity.
Qed.

(** X17: with the contracting dimensions listed in ascending order, the
    index the loop of lines 176-178 computes is not a contracting
    dimension and has exactly [split_dim] other dimensions that are not
    contracting before it: it is the operand index of free dimension
    number [split_dim]. *)
Theorem adjust_split_dim_ascending (contracting : list Z) :
  StronglySorted Z.lt contracting ->
  forall split_dim,
    let r := adjust_split_dim contracting split_dim in
    ~ In r contracting /\
    r = split_dim
        + Z.of_nat (length (filter (fun c => c <? r) contracting)).
Proof.
  induction 1 as [| a t Hsorted IH Ha]; intros sd r.
  - subst r. simpl. split; [tauto | lia].
  - subst r. unfold adjust_split_dim in *. cbn [fold_left].
    destruct (Z.geb_spec sd a) as [Hge | Hlt].
    + destruct (IH (sd + 1)) as (Hnin & Heq).
      set (r := fold_left (fun sd0 c => if sd0 >=? c then sd0 + 1 else sd0)
                          t (sd + 1)) in *.
      assert (Hr : sd + 1 <= r).
      { rewrite Heq. lia. }
      split.
      * intros [-> | Hin]; [lia | contradiction].
      * cbn [filter]. destruct (Z.ltb_spec a r); [| lia].
        cbn [length]. lia.
    + assert (Habove : Forall (fun c => sd < c) t).
      { eapply Forall_impl; [| exact Ha]. intros c Hc. simpl in Hc. lia. }
      pose proof (adjust_split_dim_above t sd Habove) as Hsame.
      unfold adjust_split_dim in Hsame. rewrite Hsame. split.
      * intros [-> | Hin]; [lia |].
        rewrite Forall_forall in Habove. apply Habove in Hin. lia.
      * rewrite filter_none; [simpl; lia |].
        constructor; [cbn beta; apply Z.ltb_ge; lia |].
        eapply Forall_impl; [| exact Habove].
        intros c Hc. cbn beta in *. apply Z.ltb_ge. lia.
Qed.

Lemma adjust_split_dim_ascending_witness :
  let r := adjust_split_dim [0; 2] 1 in
  ~ In r [0; 2] /\
  r = 1 + Z.of_nat (length (filter (fun c => c <? r) [0; 2])).
Proof.
  apply (adjust_split_dim_ascending [0; 2]).
  repeat (constructor; try lia).
Defined.

Lemma lower_split_dim_below (contracting : list Z) :
  StronglySorted Z.gt contracting ->
  forall d,
    Forall (fun c => c < d) contracting ->
    lower_split_dim contracting d = d - Z.of_nat (length contracting).
Proof.
  unfold lower_split_dim.
  induction 1 as [| a t Hsorted IH Ha]; intros d Hbelow.
  - simpl. lia.
  - inversion Hbelow as [| ? ? Had Ht]; subst. cbn [fold_left].
    destruct (Z.ltb_spec a d); [| lia].
    rewrite IH.
    + cbn [length]. lia.
    + rewrite Forall_forall in Ha |- *. intros c Hc.
      specialize (Ha c Hc). lia.
Qed.

(** X18: with the contracting dimensions listed in descending order, in
    particular with a single one, the loop of lines 302-308 lowers the
    split dimension by the number of contracting dimensions before it. *)
Theorem lower_split_dim_descending (contracting : list Z) :
  StronglySorted Z.gt contracting ->
  forall d,
    lower_split_dim contracting d
    = d - Z.of_nat (length (filter (fun c => c <? d) contracting)).
Proof.
  induction 1 as [| a t Hsorted IH Ha]; intros d.
  - unfold lower_split_dim. simpl. lia.
  - cbn [filter]. destruct (Z.ltb_spec a d) as [Hlt | Hge].
    + assert (Hbelow : Forall (fun c => c < d) (a :: t)).
      { constructor; [exact Hlt |].
        eapply Forall_impl; [| exact Ha]. intros c Hc. simpl in Hc. lia. }
      rewrite lower_split_dim_below; [| constructor; assumption | exact Hbelow].
      rewrite filter_all; [reflexivity |].
      inversion Hbelow as [| ? ? _ Ht]; subst.
      eapply Forall_impl; [| exact Ht]. intros c Hc. apply Z.ltb_lt. exact Hc.
    + unfold lower_split_dim in *. cbn [fold_left].
      destruct (Z.ltb_spec a d); [lia |]. apply IH.
Qed.

Lemma lower_split_dim_descending_witness :
  lower_split_dim [2; 0] 3
  = 3 - Z.of_nat (length (filter (fun c => c <? 3) [2; 0])).
Proof.
  apply (lower_split_dim_descending [2; 0]).
  repeat (constructor; try lia).
Defined.

(** ** The prime table and the factoring loop *)

Lemma table_complete_check :
  forallb table_or_composite (map Z.of_nat (seq 2 310)) = true.
Proof. vm_compute. reflexivity. Qed.

(** X19: the table holds exactly the primes up to 311: every entry is a
    prime and no prime up to 311 is missing. *)
Theorem primes_table_exact (p : Z) :
  In p primes <-> Z.prime p /\ p <= 311.
Proof.
  split.
  - intros Hin. split.
    + pose proof primes_prime as H. rewrite Forall_forall in H. auto.
    + assert (H : Forall (fun q => q <= 311) primes).
      { unfold primes. repeat (constructor; [lia |]). constructor. }
      rewrite Forall_forall in H. auto.
  - intros [[Hp Hnd] Hle].
    pose proof table_complete_check as H. rewrite forallb_forall in H.
    assert (Hin : In p (map Z.of_nat (seq 2 310))).
    { apply in_map_iff. exists (Z.to_nat p). split; [lia |]. apply in_seq. lia. }
    apply H in Hin. unfold table_or_composite in Hin.
    apply orb_true_iff in Hin. destruct Hin as [Hin | Hin].
    + apply existsb_exists in Hin. destruct Hin as (q & Hq & Heq).
      apply Z.eqb_eq in Heq. subst q. exact Hq.
    + exfalso. apply existsb_exists in Hin. destruct Hin as (k & Hk & Hrem).
      apply in_map_iff in Hk. destruct Hk as (n & <- & Hn).
      apply in_seq in Hn. apply Z.eqb_eq in Hrem.
      apply Z.rem_divide in Hrem; [| lia].
      apply (Hnd (Z.of_nat n)); [lia | exact Hrem].
Qed.

(** X20: the first loop of [BestSplitSize] factors the dimension size over
    the table: for a size of at least one it ends, with one multiplicity
    per table entry, none negative; the size is the product of the table
    primes raised to their multiplicities times what is left, and no table
    prime divides what is left. *)
Theorem factorize_multiplicities (split_size : Z) :
  1 <= split_size ->
  exists factors rest,
    factorize primes split_size = Ok (factors, rest) /\
    length factors = 64%nat /\
    Forall (fun f => 0 <= f) factors /\
    1 <= rest /\
    split_size = rest * prime_powers primes factors /\
    Forall (fun p => ~ (p | rest)) primes.
Proof.
  intros Hn.
  destruct (factorize_spec primes primes_ge_2 split_size Hn)
    as (fs & t & Hf & Hlen & Hfs & Ht & Heq & Hrough).
  exists fs, t. repeat split; auto.
Qed.

Lemma factorize_multiplicities_witness :
  exists factors rest,
    factorize primes 20000 = Ok (factors, rest) /\
    length factors = 64%nat /\
    Forall (fun f => 0 <= f) factors /\
    1 <= rest /\
    20000 = rest * prime_powers primes factors /\
    Forall (fun p => ~ (p | rest)) primes.
Proof.
  apply (factorize_multiplicities 20000). lia.
Defined.

(** ** The dot case of the builder on the lhs side *)

Lemma slice_loop_fresh (split_op join_op : HloInstruction)
    (split_shape : Shape) (split_dim split_size : Z) (stride : list Z) :
  1 <= split_size ->
  forall (n : nat) start limit dims_done idx,
    let slice_at (k : nat) :=
      Slice split_shape split_op
            (list_set start (Z.to_nat split_dim)
                      (dims_done + Z.of_nat k * split_size))
            (list_set limit (Z.to_nat split_dim)
                      (dims_done + Z.of_nat k * split_size + split_size))
            stride in
    slice_loop (repeat [] n) split_op join_op split_shape split_dim split_size
               start limit stride dims_done
               (dims_done + Z.of_nat n * split_size) idx
    = Ok (map slice_at (seq 0 n),
          map (fun k => [slice_at k; join_op]) (seq 0 n),
          match n with O => idx | S _ => Some (0, 1) end).
Proof.
  intros Hsize. induction n as [| n IH]; intros start limit done idx slice_at.
  - replace (done + Z.of_nat 0 * split_size) with done by lia.
    simpl. rewrite Z.ltb_irrefl. reflexivity.
  - cbn [repeat slice_loop].
    destruct (Z.ltb_spec done (done + Z.of_nat (S n) * split_size)); [| nia].
    replace (done + Z.of_nat (S n) * split_size)
      with (done + split_size + Z.of_nat n * split_size) by lia.
    rewrite IH. cbn [bind].
    assert (Hshift : forall k,
      Slice split_shape split_op
        (list_set (list_set start (Z.to_nat split_dim) done) (Z.to_nat split_dim)
                  (done + split_size + Z.of_nat k * split_size))
        (list_set (list_set limit (Z.to_nat split_dim) (done + split_size))
                  (Z.to_nat split_dim)
                  (done + split_size + Z.of_nat k * split_size + split_size))
        stride
      = slice_at (S k)).
    { intros k. unfold slice_at. rewrite !list_set_twice.
      replace (done + Z.of_nat (S k) * split_size)
        with (done + split_size + Z.of_nat k * split_size) by lia.
      reflexivity. }
    assert (Hzero :
      Slice split_shape split_op (list_set start (Z.to_nat split_dim) done)
            (list_set limit (Z.to_nat split_dim) (done + split_size)) stride
      = slice_at 0%nat).
    { unfold slice_at.
      replace (done + Z.of_nat 0 * split_size) with done by lia. reflexivity. }
    rewrite Hzero.
    rewrite (map_ext _ (fun k => slice_at (S k)) Hshift).
    rewrite (map_ext _ (fun k => [slice_at (S k); join_op])
                     (fun k => f_equal (fun x => [x; join_op]) (Hshift k))).
    cbn [seq map app]. rewrite <- seq_shift, !map_map.
    f_equal. f_equal. destruct n; reflexivity.
Qed.

Lemma set_dimensions_in_range (s : Shape) (i v : Z) :
  0 <= i < rank s -> exists s', set_dimensions s i v = Ok s'.
Proof.
  intros Hi. unfold set_dimensions, set_at, rank in *.
  destruct (Z.ltb_spec i 0); [lia |].
  destruct (Z.leb_spec (Z.of_nat (length (dimensions s))) i); [lia |].
  cbn [orb bind]. eexists. reflexivity.
Qed.

(** X21: the dot case on the lhs side.  When the split dimension lies among
    the free dimensions of the lhs, the adjusted index is a dimension of
    the lhs of [n] whole chunks, and [n] empty operand lists are supplied,
    the builder cuts the lhs into [n] consecutive slices along the adjusted
    index, gives chunk [k] the pair of slice [k] and the whole rhs, and
    returns the dot with its dimension numbers over parameter 0, of the
    slice shape, and parameter 1, of the rhs shape, with the dot's shape
    resized at the split dimension. *)
Theorem Build_dot_splits_lhs (s : Shape) (lhs rhs : HloInstruction)
    (dnums : DotDimensionNumbers) (split_dim split_size : Z) (n : nat) :
  1 <= split_size -> (1 <= n)%nat ->
  0 <= split_dim < rank s ->
  split_dim < rank (shape_of lhs)
              - Z.of_nat (length (lhs_contracting_dimensions dnums)) ->
  let r := adjust_split_dim (lhs_contracting_dimensions dnums) split_dim in
  dimensions_at (shape_of lhs) r = Ok (Z.of_nat n * split_size) ->
  exists dot_shape split_shape,
    set_dimensions s split_dim split_size = Ok dot_shape /\
    set_dimensions (shape_of lhs) r split_size = Ok split_shape /\
    let slice_at (k : nat) :=
      Slice split_shape lhs
            (list_set (map (fun _ => 0) (dimensions (shape_of lhs)))
                      (Z.to_nat r) (Z.of_nat k * split_size))
            (list_set (dimensions (shape_of lhs))
                      (Z.to_nat r) (Z.of_nat k * split_size + split_size))
            (map (fun _ => 1) (dimensions (shape_of lhs))) in
    let split_param := Param 0 split_shape "dot_split_tensor" in
    let join_param := Param 1 (shape_of rhs) "dot_join_tensor" in
    let root := Dot dot_shape split_param join_param dnums in
    BuildComputationAndParameters (Dot s lhs rhs dnums) split_dim split_size
                                  (empty_parameters n)
    = Ok (root,
          {| parent_added := map slice_at (seq 0 n);
             builder_instructions := [split_param; join_param; root];
             parameters := map (fun k => [slice_at k; rhs]) (seq 0 n) |}).
Proof.
  intros Hsize Hn Hsd Hlhs r Hdim.
  destruct (set_dimensions_in_range s split_dim split_size Hsd)
    as (dot_shape & Hdot).
  assert (Hr : 0 <= r < rank (shape_of lhs)).
  { apply at_Ok in Hdim. unfold rank. lia. }
  destruct (set_dimensions_in_range (shape_of lhs) r split_size Hr)
    as (split_shape & Hsplit).
  exists dot_shape, split_shape. split; [exact Hdot |]. split; [exact Hsplit |].
  intros slice_at split_param join_param root.
  cbn [BuildComputationAndParameters]. unfold BuildDot.
  replace (MakeShape (element_type s) (dimensions s)) with s
    by (destruct s; reflexivity).
  rewrite Hdot. cbn [bind].
  destruct (Z.ltb_spec split_dim
              (rank (shape_of lhs)
               - Z.of_nat (length (lhs_contracting_dimensions dnums))));
    [| lia].
  fold r.
  replace (MakeShape (element_type (shape_of lhs)) (dimensions (shape_of lhs)))
    with (shape_of lhs) by (destruct (shape_of lhs); reflexivity).
  rewrite Hsplit. cbn [bind]. rewrite Hdim. cbn [bind].
  cbn [empty_parameters parameters parent_added builder_instructions].
  pose proof (slice_loop_fresh lhs rhs split_shape r split_size
                (map (fun _ => 1) (dimensions (shape_of lhs))) Hsize n
                (map (fun _ => 0) (dimensions (shape_of lhs)))
                (dimensions (shape_of lhs)) 0 None) as Hloop.
  cbn zeta in Hloop. rewrite Z.add_0_l in Hloop. rewrite Hloop.
  cbn [bind]. destruct n as [| n]; [lia |].
  cbn [CloneWithNewOperands bind app]. reflexivity.
Qed.

Lemma Build_dot_splits_lhs_witness :
  let r := adjust_split_dim (lhs_contracting_dimensions matmul) 0 in
  exists dot_shape split_shape,
    set_dimensions (f32 [4; 3]) 0 1 = Ok dot_shape /\
    set_dimensions (shape_of (Param 1 (f32 [4; 2]) "b")) r 1 = Ok split_shape /\
    let slice_at (k : nat) :=
      Slice split_shape (Param 1 (f32 [4; 2]) "b")
            (list_set (map (fun _ => 0)
                           (dimensions (shape_of (Param 1 (f32 [4; 2]) "b"))))
                      (Z.to_nat r) (Z.of_nat k * 1))
            (list_set (dimensions (shape_of (Param 1 (f32 [4; 2]) "b")))
                      (Z.to_nat r) (Z.of_nat k * 1 + 1))
            (map (fun _ => 1)
                 (dimensions (shape_of (Param 1 (f32 [4; 2]) "b")))) in
    let split_param := Param 0 split_shape "dot_split_tensor" in
    let join_param :=
      Param 1 (shape_of (Param 2 (f32 [2; 3]) "c")) "dot_join_tensor" in
    let root := Dot dot_shape split_param join_param matmul in
    BuildComputationAndParameters
      (Dot (f32 [4; 3]) (Param 1 (f32 [4; 2]) "b")
           (Param 2 (f32 [2; 3]) "c") matmul) 0 1 (empty_parameters 4)
    = Ok (root,
          {| parent_added := map slice_at (seq 0 4);
             builder_instructions := [split_param; join_param; root];
             parameters :=
               map (fun k => [slice_at k; Param 2 (f32 [2; 3]) "c"])
                   (seq 0 4) |}).
Proof.
  apply (Build_dot_splits_lhs (f32 [4; 3]) (Param 1 (f32 [4; 2]) "b")
           (Param 2 (f32 [2; 3]) "c") matmul 0 1 4);
    try reflexivity; unfold rank; simpl; lia.
Defined.
